(** * Clinic triage platform: the assignment engine of [services/api.ts]

    A shallow embedding of the mock back end of the triage platform
    ([src/services/api.ts]): the doctor roster, the visit records, the
    assignment engine [findBestDoctor] and the API operations that mutate
    the roster loads ([finalizeTriage], [submitDiagnosis], ...).

    Conventions of the embedding.
    - A JavaScript [number] holding a caseload is an integer ([Z]); the
      division and the cost arithmetic of [findBestDoctor] are carried out
      in exact rationals ([Q]).  The source computes in IEEE doubles, which
      agree with the rationals up to rounding; the stores evaluated below
      compare costs that differ by hundreds of seconds or are both exact.
    - Strings are [string]; [toLowerCase] folds the ASCII letters.
    - A JavaScript reference to a [Doctor] object of the [doctors] array is
      a pair of the position of the object in the array and its fields
      ([DoctorRef]); the array only grows ([push]), so positions are stable.
    - The [updates] argument of [updateVisitStatus], declared [any], is a
      record of optional properties, each of the type its field is
      declared with ([VisitUpdates]).
    - [async] functions run to completion once called; the [delay]s, the
      simulation clock and the language model are outside the embedding.
      The language model's answer is an argument of [finalizeTriage]. *)

From Stdlib Require Import Ascii ZArith QArith Qminmax Lia.
From stdpp Require Import base decidable option list sorting strings.

(** ** Types ([types.ts], [services/api.ts]) *)

(** [Doctor['status']]: ['active' | 'break' | 'offline']. *)
Inductive DoctorStatus := active | on_break | offline.

#[global] Instance DoctorStatus_eq_dec : EqDecision DoctorStatus.
Proof. solve_decision. Defined.

(** [interface Doctor]; the fields [id], [name] and [status] carry the
    prefix [doctor_] because record fields share one name space. *)
Record Doctor := mkDoctor {
  doctor_id : string;
  doctor_name : string;
  specialty : string;
  currentLoad : Z;
  doctor_status : DoctorStatus
}.

(** A reference to an element of the [doctors] array. *)
Definition DoctorRef : Type := nat * Doctor.

(** ** String helpers *)

Definition lower_ascii (c : ascii) : ascii :=
  let n := nat_of_ascii c in
  if (65 <=? n)%nat && (n <=? 90)%nat then ascii_of_nat (n + 32) else c.

(** [String.prototype.toLowerCase] on ASCII text. *)
Fixpoint toLowerCase (s : string) : string :=
  match s with
  | EmptyString => EmptyString
  | String c s' => String (lower_ascii c) (toLowerCase s')
  end.

(** ** Intelligent assignment engine *)

Definition MISMATCH_PENALTY : Q := 10000.
Definition LOAD_PENALTY_WEIGHT : Q := 300.
Definition AVG_SERVICE_TIME : Q := 900.

(** [minCost] starts at [Infinity]. *)
Inductive Cost := Finite (q : Q) | Infinity.

(** [totalCost < minCost]. *)
Definition cost_lt (c : Q) (m : Cost) : bool :=
  match m with
  | Infinity => true
  | Finite q => match (c ?= q)%Q with Lt => true | _ => false end
  end.

#[global] Instance Qle_decision (x y : Q) : Decision (x <= y)%Q :=
  match Qlt_le_dec y x with
  | left H => right (Qlt_not_le _ _ H)
  | right H => left H
  end.

(** [doctors.filter(d => d.status === 'active')], as references. *)
Definition activeDoctorsOf (doctors : list Doctor) : list DoctorRef :=
  filter (fun r : DoctorRef => doctor_status r.2 = active) (imap pair doctors).

(** [activeDoctors.reduce((acc, d) => acc + d.currentLoad, 0)]. *)
Definition sumLoad (ds : list DoctorRef) : Z :=
  fold_left (fun acc (d : DoctorRef) => (acc + currentLoad d.2)%Z) ds 0%Z.

(** [sumLoad / activeDoctors.length]; [findBestDoctor] returns before this
    point when the array is empty, so the divisor is never 0 there. *)
Definition averageLoad (ds : list DoctorRef) : Q :=
  (inject_Z (sumLoad ds) / inject_Z (Z.of_nat (length ds)))%Q.

(** [doc.specialty.toLowerCase() === targetSpecialty.toLowerCase()]. *)
Definition isMatch (targetSpecialty : string) (doc : Doctor) : Prop :=
  toLowerCase (specialty doc) = toLowerCase targetSpecialty.

#[global] Instance isMatch_dec t d : Decision (isMatch t d).
Proof. unfold isMatch. apply _. Defined.

(** *** Emergency override *)

Definition lessBusyOf (avgLoad : Q) (ds : list DoctorRef) : list DoctorRef :=
  filter (fun d : DoctorRef => (inject_Z (currentLoad d.2) <= avgLoad)%Q) ds.

(** One iteration of the [for (const doc of candidates)] loop. *)
Definition matchStep (targetSpecialty : string)
    (bestMatch : option DoctorRef) (doc : DoctorRef) : option DoctorRef :=
  if decide (isMatch targetSpecialty doc.2) then
    match bestMatch with
    | None => Some doc
    | Some b =>
        if decide (currentLoad doc.2 < currentLoad b.2)%Z then Some doc
        else bestMatch
    end
  else bestMatch.

(** [candidates.sort((a, b) => a.currentLoad - b.currentLoad)]:
    [Array.prototype.sort] is stable, and a stable sort on a key has one
    possible result, computed here by insertion. *)
Fixpoint insertByLoad (x : DoctorRef) (l : list DoctorRef) : list DoctorRef :=
  match l with
  | [] => [x]
  | y :: l' =>
      if decide (currentLoad x.2 <= currentLoad y.2)%Z then x :: y :: l'
      else y :: insertByLoad x l'
  end.

Definition sortByLoad (l : list DoctorRef) : list DoctorRef :=
  foldr insertByLoad [] l.

Definition emergencyCandidates (activeDoctors : list DoctorRef) : list DoctorRef :=
  let avgLoad := averageLoad activeDoctors in
  let lessBusy := lessBusyOf avgLoad activeDoctors in
  if decide (0 < length lessBusy)%nat then lessBusy else activeDoctors.

Definition emergencyPick (targetSpecialty : string)
    (activeDoctors : list DoctorRef) : option DoctorRef :=
  let candidates := emergencyCandidates activeDoctors in
  let bestMatch := fold_left (matchStep targetSpecialty) candidates None in
  match bestMatch with
  | Some b => Some b
  | None => head (sortByLoad candidates)
  end.

(** *** Standard logic: cost minimisation *)

Definition mismatchCost (targetSpecialty : string) (doc : Doctor) : Q :=
  if decide (isMatch targetSpecialty doc) then 0 else MISMATCH_PENALTY.

Definition estimatedWait (doc : Doctor) : Q :=
  (inject_Z (currentLoad doc) * AVG_SERVICE_TIME)%Q.

Definition loadPenalty (avgLoad : Q) (doc : Doctor) : Q :=
  (Qmax 0 (inject_Z (currentLoad doc) - avgLoad) * LOAD_PENALTY_WEIGHT)%Q.

Definition totalCost (avgLoad : Q) (targetSpecialty : string) (doc : Doctor) : Q :=
  (mismatchCost targetSpecialty doc + estimatedWait doc + loadPenalty avgLoad doc)%Q.

(** One iteration of the [for (const doc of activeDoctors)] loop over the
    pair [(minCost, bestDoctor)]. *)
Definition costStep (avgLoad : Q) (targetSpecialty : string)
    (st : Cost * option DoctorRef) (doc : DoctorRef) : Cost * option DoctorRef :=
  let c := totalCost avgLoad targetSpecialty doc.2 in
  if cost_lt c st.1 then (Finite c, Some doc) else st.

Definition standardPick (targetSpecialty : string)
    (activeDoctors : list DoctorRef) : option DoctorRef :=
  let avgLoad := averageLoad activeDoctors in
  let bestDoctor :=
    (fold_left (costStep avgLoad targetSpecialty) activeDoctors (Infinity, None)).2 in
  match bestDoctor with
  | Some b => Some b
  | None => head activeDoctors
  end.

(** [findBestDoctor(targetSpecialty, priority)] reading the roster
    [doctors]; [None] is the [null] result. *)
Definition findBestDoctor (doctors : list Doctor)
    (targetSpecialty priority : string) : option DoctorRef :=
  let activeDoctors := activeDoctorsOf doctors in
  if decide (length activeDoctors = 0%nat) then None
  else if decide (priority = "Emergency") then emergencyPick targetSpecialty activeDoctors
  else standardPick targetSpecialty activeDoctors.

(** *** The emergency rule in the words of the specification

    The definitions of this part follow the specification, not the code:
    they say what "active", "at or below the average load" and "equal up
    to letter case" mean without the functions [averageLoad],
    [toLowerCase] and [activeDoctorsOf] of the embedding. *)







(** The roster of the source. *)
Definition initialDoctors : list Doctor :=
  [ mkDoctor "d_1" "Dr. A. House" "Internal Medicine" 0 active;
    mkDoctor "d_2" "Dr. M. Grey" "General Surgery" 0 active;
    mkDoctor "d_3" "Dr. S. Strange" "Neurology" 0 active;
    mkDoctor "d_4" "Dr. J. Dorian" "Internal Medicine" 0 active;
    mkDoctor "d_5" "Dr. D. Shepherd" "Neurosurgery" 0 on_break;
    mkDoctor "d_6" "Dr. L. Cuddy" "Endocrinology" 0 active ].

(** ** Mock store *)

Record MockPatient := mkPatient {
  patient_ident : Z;
  patient_name : string;
  phone : option string
}.

(** The fields of [TriageSummary] that the back end reads. *)
Record TriageSummary := mkSummary {
  summary_complaint : string;
  summary_priority : string;
  conversation_summary : string
}.

Record APIDiagnosis := mkDiagnosis {
  doctor_notes : string;
  discharge_summary : string
}.

(** [interface MockVisit]; [None] is an absent optional field.  The time
    stamps, the transcript and the stored triage summary play no part in
    the assignment engine and are left out. *)
Record MockVisit := mkVisit {
  visit_id : Z;
  patient_id : Z;
  visit_status : string;
  presenting_complaint : string;
  priority : string;
  assigned_doctor_id : option string;
  ai_assigned_specialty : option string;
  diagnosis : option APIDiagnosis
}.

(** The module-level variables [doctors], [patients], [visits],
    [nextPatientId] and [nextVisitId]. *)
Record Store := mkStore {
  doctors : list Doctor;
  patients : list MockPatient;
  visits : list MockVisit;
  nextPatientId : Z;
  nextVisitId : Z
}.

Definition initialStore : Store := mkStore initialDoctors [] [] 101 1.

(** A call either returns, with the store it leaves, or throws. *)
Inductive Outcome := Ok (s : Store) | Throw (msg : string).

(** *** Field updates *)

Definition setLoad (f : Z -> Z) (d : Doctor) : Doctor :=
  mkDoctor (doctor_id d) (doctor_name d) (specialty d) (f (currentLoad d))
           (doctor_status d).

Definition setDoctorStatus (st : DoctorStatus) (d : Doctor) : Doctor :=
  mkDoctor (doctor_id d) (doctor_name d) (specialty d) (currentLoad d) st.

Definition setVisitStatus (st : string) (v : MockVisit) : MockVisit :=
  mkVisit (visit_id v) (patient_id v) st (presenting_complaint v) (priority v)
          (assigned_doctor_id v) (ai_assigned_specialty v) (diagnosis v).

Definition setAssigned (did : string) (v : MockVisit) : MockVisit :=
  mkVisit (visit_id v) (patient_id v) (visit_status v) (presenting_complaint v)
          (priority v) (Some did) (ai_assigned_specialty v) (diagnosis v).

Definition setDiagnosis (dg : APIDiagnosis) (v : MockVisit) : MockVisit :=
  mkVisit (visit_id v) (patient_id v) (visit_status v) (presenting_complaint v)
          (priority v) (assigned_doctor_id v) (ai_assigned_specialty v) (Some dg).

(** The [updates] argument of [updateVisitStatus] (declared [any]): an
    object whose own properties are copied onto the visit.  A property is
    absent ([None]) or present with a value of the type the field is
    declared with; for an optional field the value may be [undefined]
    ([Some None]).  Properties that [MockVisit] leaves out are left out. *)
Record VisitUpdates := mkUpdates {
  upd_id : option Z;
  upd_patient_id : option Z;
  upd_status : option string;
  upd_presenting_complaint : option string;
  upd_priority : option string;
  upd_assigned_doctor_id : option (option string);
  upd_ai_assigned_specialty : option (option string);
  upd_diagnosis : option (option APIDiagnosis)
}.

(** The default [updates = {}]. *)
Definition noUpdates : VisitUpdates :=
  mkUpdates None None None None None None None None.

(** [Object.assign(visit, updates)]. *)
Definition assignUpdates (u : VisitUpdates) (v : MockVisit) : MockVisit :=
  mkVisit (default (visit_id v) (upd_id u))
          (default (patient_id v) (upd_patient_id u))
          (default (visit_status v) (upd_status u))
          (default (presenting_complaint v) (upd_presenting_complaint u))
          (default (priority v) (upd_priority u))
          (default (assigned_doctor_id v) (upd_assigned_doctor_id u))
          (default (ai_assigned_specialty v) (upd_ai_assigned_specialty u))
          (default (diagnosis v) (upd_diagnosis u)).

(** The four assignments of [finalizeTriage] under "Update visit details". *)
Definition setTriaged (summary : TriageSummary) (routed : string)
    (v : MockVisit) : MockVisit :=
  mkVisit (visit_id v) (patient_id v) "waiting" (summary_complaint summary)
          (summary_priority summary) (assigned_doctor_id v) (Some routed)
          (diagnosis v).

Definition withDoctors (ds : list Doctor) (s : Store) : Store :=
  mkStore ds (patients s) (visits s) (nextPatientId s) (nextVisitId s).

Definition withVisits (vs : list MockVisit) (s : Store) : Store :=
  mkStore (doctors s) (patients s) vs (nextPatientId s) (nextVisitId s).

(** [visits.find(v => v.id === visitId)], with the position found. *)
Definition findVisit (visitId : Z) (vs : list MockVisit) : option (nat * MockVisit) :=
  list_find (fun v => visit_id v = visitId) vs.

(** [doctors.find(d => d.id === doctorId)]. *)
Definition findDoctor (doctorId : string) (ds : list Doctor) : option DoctorRef :=
  list_find (fun d => doctor_id d = doctorId) ds.

(** *** Exported API functions *)

(** [addDoctor]; [num] is the text of [doctors.length + 1 + Math.random()]. *)
Definition addDoctor (name spec : string) (st : DoctorStatus) (num : string)
    (s : Store) : Outcome :=
  Ok (withDoctors (doctors s ++ [mkDoctor ("d_" +:+ num) name spec 0 st]) s).

Definition updateDoctorStatus (doctorId : string) (st : DoctorStatus)
    (s : Store) : Outcome :=
  match findDoctor doctorId (doctors s) with
  | Some (i, _) => Ok (withDoctors (alter (setDoctorStatus st) i (doctors s)) s)
  | None => Ok s
  end.

Definition createPatient (name : string) (ph : option string) (s : Store) : Outcome :=
  Ok (mkStore (doctors s)
              (patients s ++ [mkPatient (nextPatientId s) name ph])
              (visits s) (nextPatientId s + 1) (nextVisitId s)).

Definition beginVisit (patientId : Z) (s : Store) : Outcome :=
  match list_find (fun p => patient_ident p = patientId) (patients s) with
  | None => Throw "Patient not found for new visit"
  | Some _ =>
      let newVisit :=
        mkVisit (nextVisitId s) patientId "triage" "In Triage..." "Normal"
                None None None in
      Ok (mkStore (doctors s) (patients s) (visits s ++ [newVisit])
                  (nextPatientId s) (nextVisitId s + 1))
  end.

(** [routingResult.specialty]: the pre-calculated specialty when it is
    truthy, else the answer [aiSpecialty] of [determineMedicalSpecialty]. *)
Definition routedSpecialty (preCalculatedSpecialty : option string)
    (aiSpecialty : string) : string :=
  match preCalculatedSpecialty with
  | Some p => if decide (p = "") then aiSpecialty else p
  | None => aiSpecialty
  end.

Definition finalizeTriage (visitId : Z) (summary : TriageSummary)
    (preCalculatedSpecialty : option string) (aiSpecialty : string)
    (s : Store) : Outcome :=
  match findVisit visitId (visits s) with
  | None => Throw "Visit not found to finalize"
  | Some (k, visit) =>
      let routed := routedSpecialty preCalculatedSpecialty aiSpecialty in
      let visit1 := setTriaged summary routed visit in
      match findBestDoctor (doctors s) routed (summary_priority summary) with
      | Some (i, assignedDoctor) =>
          Ok (mkStore (alter (setLoad (fun n => n + 1)%Z) i (doctors s))
                      (patients s)
                      (<[k := setAssigned (doctor_id assignedDoctor) visit1]> (visits s))
                      (nextPatientId s) (nextVisitId s))
      | None => Ok (withVisits (<[k := visit1]> (visits s)) s)
      end
  end.

(** [updateVisitStatus]: the status is written first, then
    [Object.assign(visit, updates)] copies the properties of [updates] over
    the visit, the status included.  The two time stamps that the function
    sets are among the fields left out of [MockVisit]. *)
Definition updateVisitStatus (visitId : Z) (st : string) (updates : VisitUpdates)
    (s : Store) : Outcome :=
  match findVisit visitId (visits s) with
  | None => Throw "Visit not found"
  | Some (k, visit) =>
      Ok (withVisits (<[k := assignUpdates updates (setVisitStatus st visit)]> (visits s)) s)
  end.

(** The "Decrement doctor's load" block of [submitDiagnosis]; the test
    [if (visit.assigned_doctor_id)] is false for the empty string too. *)
Definition decrementLoad (assigned : option string) (ds : list Doctor) : list Doctor :=
  match assigned with
  | Some did =>
      if decide (did = "") then ds
      else match findDoctor did ds with
           | Some (i, _) => alter (setLoad (fun n => Z.max 0 (n - 1))) i ds
           | None => ds
           end
  | None => ds
  end.

Definition submitDiagnosis (visitId : Z) (doctorName notes : string)
    (s : Store) : Outcome :=
  match findVisit visitId (visits s) with
  | None => Throw "Visit not found"
  | Some (k, visit) =>
      let dg := mkDiagnosis notes
                  ("Discharged by " +:+ doctorName +:+ ". Notes: " +:+ notes) in
      let visit1 := setVisitStatus "seen" (setDiagnosis dg visit) in
      Ok (mkStore (decrementLoad (assigned_doctor_id visit) (doctors s))
                  (patients s) (<[k := visit1]> (visits s))
                  (nextPatientId s) (nextVisitId s))
  end.

(** *** Sequences of calls *)

Inductive Call :=
| CreatePatient (name : string) (ph : option string)
| BeginVisit (patientId : Z)
| FinalizeTriage (visitId : Z) (summary : TriageSummary)
    (preCalculatedSpecialty : option string) (aiSpecialty : string)
| UpdateVisitStatus (visitId : Z) (st : string) (updates : VisitUpdates)
| SubmitDiagnosis (visitId : Z) (doctorName notes : string)
| AddDoctor (name spec : string) (st : DoctorStatus) (num : string)
| UpdateDoctorStatus (doctorId : string) (st : DoctorStatus).

Definition call (c : Call) (s : Store) : Outcome :=
  match c with
  | CreatePatient name ph => createPatient name ph s
  | BeginVisit pid => beginVisit pid s
  | FinalizeTriage vid summary pre ai => finalizeTriage vid summary pre ai s
  | UpdateVisitStatus vid st updates => updateVisitStatus vid st updates s
  | SubmitDiagnosis vid dn notes => submitDiagnosis vid dn notes s
  | AddDoctor name spec st num => addDoctor name spec st num s
  | UpdateDoctorStatus did st => updateDoctorStatus did st s
  end.

(** Every function throws before its first write, so a call that throws
    leaves the store as it was. *)
Definition step (s : Store) (c : Call) : Store :=
  match call c s with
  | Ok s' => s'
  | Throw _ => s
  end.

Definition run (cs : list Call) (s : Store) : Store := fold_left step cs s.

(** *** Ledger readings *)

(** The sum of all clinicians' current loads. *)
Definition totalLoad (ds : list Doctor) : Z :=
  foldr Z.add 0%Z (currentLoad <$> ds).

(** A visit that has an assigned clinician and is not yet completed. *)
Definition openAssigned (v : MockVisit) : Prop :=
  is_Some (assigned_doctor_id v) /\ visit_status v <> "seen".

#[global] Instance openAssigned_dec v : Decision (openAssigned v).
Proof. unfold openAssigned. apply _. Defined.

Definition openCount (vs : list MockVisit) : Z :=
  Z.of_nat (length (filter openAssigned vs)).

(** ** Loop invariants and ledger predicates *)

(** What the specialty loop has found after the doctors [seen]. *)
Definition matchInv (t : string) (seen : list DoctorRef)
    (bestMatch : option DoctorRef) : Prop :=
  match bestMatch with
  | None => forall m, m ∈ seen -> ~ isMatch t m.2
  | Some r =>
      r ∈ seen /\ isMatch t r.2 /\
      forall m, m ∈ seen -> isMatch t m.2 -> (currentLoad r.2 <= currentLoad m.2)%Z
  end.

(** What the cost loop holds after the doctors [seen]: nothing, or the
    first doctor of least cost among them. *)
Definition costInv (avg : Q) (t : string) (seen : list DoctorRef)
    (st : Cost * option DoctorRef) : Prop :=
  match st.2 with
  | None => st.1 = Infinity /\ seen = []
  | Some r =>
      st.1 = Finite (totalCost avg t r.2) /\
      exists pre post,
        seen = pre ++ r :: post /\
        (forall x, x ∈ pre -> (totalCost avg t r.2 < totalCost avg t x.2)%Q) /\
        (forall x, x ∈ post -> (totalCost avg t r.2 <= totalCost avg t x.2)%Q)
  end.

(** The order of the positions of two references in the [doctors] array. *)
Definition before (a b : DoctorRef) : Prop := (a.1 < b.1)%nat.

(** Every load on the roster is at least 0. *)
Definition nonnegLoads (ds : list Doctor) : Prop :=
  Forall (fun d => (0 <= currentLoad d)%Z) ds.

(** A visit assigned to the clinician [did] and not yet completed. *)
Definition assignedOpenTo (did : string) (v : MockVisit) : Prop :=
  assigned_doctor_id v = Some did /\ visit_status v <> "seen".

#[global] Instance assignedOpenTo_dec did v : Decision (assignedOpenTo did v).
Proof. unfold assignedOpenTo. apply _. Defined.

(** The number of visits assigned to [did] that are not yet completed. *)
Definition caseload (did : string) (vs : list MockVisit) : Z :=
  Z.of_nat (length (filter (assignedOpenTo did) vs)).

(** 1 when [P] holds, else 0. *)
Definition indicator (P : Prop) `{Decision P} : Z := if decide P then 1%Z else 0%Z.

(** The calls that keep the ledger balanced: triage is finalised only for
    a visit that has no clinician yet, a diagnosis is submitted only for a
    visit that is not yet seen or has no clinician, a status update leaves
    the assigned clinician of the visit as it is and neither completes nor
    reopens a visit that has one, and a new doctor gets an unused id. *)
Definition admissibleCall (c : Call) (s : Store) : Prop :=
  match c with
  | FinalizeTriage vid _ _ _ =>
      match findVisit vid (visits s) with
      | Some (_, v) => assigned_doctor_id v = None
      | None => True
      end
  | SubmitDiagnosis vid _ _ =>
      match findVisit vid (visits s) with
      | Some (_, v) => assigned_doctor_id v = None \/ visit_status v <> "seen"
      | None => True
      end
  | UpdateVisitStatus vid st updates =>
      match findVisit vid (visits s) with
      | Some (_, v) =>
          let v' := assignUpdates updates (setVisitStatus st v) in
          assigned_doctor_id v' = assigned_doctor_id v /\
          (is_Some (assigned_doctor_id v) ->
           (visit_status v' = "seen" <-> visit_status v = "seen"))
      | None => True
      end
  | AddDoctor _ _ _ num => ("d_" +:+ num) ∉ (doctor_id <$> doctors s)
  | CreatePatient _ _ | BeginVisit _ | UpdateDoctorStatus _ _ => True
  end.

Fixpoint admissible (cs : list Call) (s : Store) : Prop :=
  match cs with
  | [] => True
  | c :: cs' => admissibleCall c s /\ admissible cs' (step s c)
  end.

(** The ledger invariant: ids identify doctors, every assigned id is on
    the roster, and each load is the number of open visits assigned to
    that doctor. *)
Record ledgerInv (s : Store) : Prop := mkLedgerInv {
  inv_nodup : NoDup (doctor_id <$> doctors s);
  inv_nonempty : "" ∉ (doctor_id <$> doctors s);
  inv_known : forall v did,
    v ∈ visits s -> assigned_doctor_id v = Some did ->
    did ∈ (doctor_id <$> doctors s);
  inv_loads : forall j d,
    doctors s !! j = Some d -> currentLoad d = caseload (doctor_id d) (visits s)
}.

(** The sum of [g] over the roster. *)
Definition sumOver (g : Doctor -> Z) (ds : list Doctor) : Z :=
  foldr Z.add 0%Z (g <$> ds).

(** ** Concrete stores *)

Definition sampleSummary (prio : string) : TriageSummary :=
  mkSummary "Severe migraine headache" prio "Patient reports: severe migraine".


(** Every doctor leaves duty, then a patient checks in. *)
Definition closingCalls : list Call :=
  [ UpdateDoctorStatus "d_1" offline; UpdateDoctorStatus "d_2" offline;
    UpdateDoctorStatus "d_3" on_break; UpdateDoctorStatus "d_4" offline;
    UpdateDoctorStatus "d_6" on_break;
    CreatePatient "Sarah Connor" None; BeginVisit 101 ].

(** The store that [closingCalls] leaves. *)
Definition closedClinic : Store :=
  Eval vm_compute in run closingCalls initialStore.

(** Two doctors listed against the order of their ids. *)
Definition tiedRoster : list Doctor :=
  [ mkDoctor "d_2" "Dr. M. Grey" "General Surgery" 0 active;
    mkDoctor "d_1" "Dr. A. House" "General Surgery" 0 active ].

(** Four [addDoctor] calls with [Math.random() = 0.5]. *)
Definition hiringCalls : list Call :=
  [ AddDoctor "Dr. C. Yang" "Cardiology" active "7.5";
    AddDoctor "Dr. R. Chase" "Neurology" active "8.5";
    AddDoctor "Dr. E. Foreman" "Neurology" active "9.5";
    AddDoctor "Dr. P. Burke" "Cardiology" active "10.5" ].

(** The roster that [hiringCalls] leaves. *)
Definition grownRoster : list Doctor :=
  Eval vm_compute in doctors (run hiringCalls initialStore).

(** One visit whose triage is finalised twice. *)
Definition doubleFinalize : list Call :=
  [ CreatePatient "John Wick" None; BeginVisit 101;
    FinalizeTriage 1 (sampleSummary "Normal") (Some "Internal Medicine") "Internal Medicine";
    FinalizeTriage 1 (sampleSummary "Normal") (Some "Internal Medicine") "Internal Medicine" ].

(** One visit through its whole life cycle, a second one waiting. *)
Definition oneDay : list Call :=
  [ CreatePatient "Sarah Connor" None; BeginVisit 101;
    FinalizeTriage 1 (sampleSummary "Normal") (Some "Neurology") "Internal Medicine";
    CreatePatient "James Bond" None; BeginVisit 102;
    FinalizeTriage 2 (sampleSummary "Emergency") None "Cardiology";
    UpdateVisitStatus 1 "in_cabin" noUpdates;
    SubmitDiagnosis 1 "Dr. S. Strange" "Patient discharged after consultation." ].

(** A diagnosis submitted twice for the same visit. *)
Definition doubleSubmit : list Call :=
  [ CreatePatient "Sarah Connor" None; BeginVisit 101;
    FinalizeTriage 1 (sampleSummary "Normal") (Some "Neurology") "Internal Medicine";
    SubmitDiagnosis 1 "Dr. S. Strange" "Discharged.";
    SubmitDiagnosis 1 "Dr. S. Strange" "Discharged." ].

(** Two Internal Medicine patients triaged while Dr. Dorian is on break,
    who then comes back on duty. *)
Definition crowdingCalls : list Call :=
  [ UpdateDoctorStatus "d_4" on_break;
    CreatePatient "John Wick" None; BeginVisit 101;
    FinalizeTriage 1 (sampleSummary "Normal") (Some "Internal Medicine") "Internal Medicine";
    CreatePatient "Ellen Ripley" None; BeginVisit 102;
    FinalizeTriage 2 (sampleSummary "Normal") (Some "Internal Medicine") "Internal Medicine";
    UpdateDoctorStatus "d_4" active ].

(** The store that [crowdingCalls] leaves. *)
Definition crowdedClinic : Store :=
  Eval vm_compute in run crowdingCalls initialStore.

(** Updates that name a clinician: [{ assigned_doctor_id: did }]. *)
Definition repointTo (did : string) : VisitUpdates :=
  mkUpdates None None None None None (Some (Some did)) None None.

(** The calls that write no assigned clinician at all: neither a
    [finalizeTriage] nor a status update whose [updates] carry an
    [assigned_doctor_id]. *)
Definition namesNoDoctor (c : Call) : Prop :=
  match c with
  | FinalizeTriage _ _ _ _ => False
  | UpdateVisitStatus _ _ updates => upd_assigned_doctor_id updates = None
  | _ => True
  end.

(** The call [c] writes no assigned clinician on the visit at position
    [k]: it neither finalises the triage of that visit nor updates it with
    an [assigned_doctor_id] among the [updates]. *)
Definition sparesVisit (c : Call) (s : Store) (k : nat) : Prop :=
  match c with
  | FinalizeTriage vid _ _ _ =>
      match findVisit vid (visits s) with
      | Some (k', _) => k' <> k
      | None => True
      end
  | UpdateVisitStatus vid _ updates =>
      upd_assigned_doctor_id updates = None \/
      match findVisit vid (visits s) with
      | Some (k', _) => k' <> k
      | None => True
      end
  | _ => True
  end.

(** * Further code: definitions *)

From Stdlib Require Import Lqa.

(** ** Reading the visits ([getTodaysVisits]) *)

(** An [APIVisit]: the visit with the [patient_name] added. *)
Record APIVisit := mkAPIVisit {
  api_visit : MockVisit;
  api_patient_name : string
}.

(** [patients.find(p => p.id === v.patient_id)?.name || 'Unknown']: a
    missing patient and an empty name both give ['Unknown']. *)
Definition patientNameFor (ps : list MockPatient) (patientId : Z) : string :=
  match list_find (fun p => patient_ident p = patientId) ps with
  | Some (_, p) => if decide (patient_name p = "") then "Unknown" else patient_name p
  | None => "Unknown"
  end.

Definition getTodaysVisits (s : Store) : list APIVisit :=
  (fun v => mkAPIVisit v (patientNameFor (patients s) (patient_id v))) <$> visits s.

(** ** The simulated patient journey ([services/simulation.ts]) *)

(** [String.prototype.includes]. *)
Fixpoint includes (searchString s : string) : bool :=
  String.prefix searchString s
  || match s with
     | EmptyString => false
     | String _ s' => includes searchString s'
     end.

(** The [priority] field of the summary built by [simulatePatientJourney]. *)
Definition journeyPriority (complaint : string) : string :=
  if includes "chest" complaint || includes "breathing" complaint
  then "Emergency" else "Normal".

Definition journeySummary (complaint : string) : TriageSummary :=
  mkSummary complaint (journeyPriority complaint) ("Patient reports: " +:+ complaint).

(** [simulatePatientJourney]: check-in, visit, triage.  [patient.id] and
    [visit.id] are the counters read before the calls; the [catch] leaves
    the store as it was when the error was thrown.  The waiting times
    between the steps are not modelled: the three calls run in a row. *)
Definition simulatePatientJourney (name complaint : string)
    (knownSpecialty : option string) (aiSpecialty : string) (s : Store) : Store :=
  match createPatient name None s with
  | Throw _ => s
  | Ok s1 =>
      match beginVisit (nextPatientId s) s1 with
      | Throw _ => s1
      | Ok s2 =>
          match finalizeTriage (nextVisitId s1) (journeySummary complaint)
                  knownSpecialty aiSpecialty s2 with
          | Throw _ => s2
          | Ok s3 => s3
          end
      end
  end.

(** One arrival: name, complaint, known specialty, routing answer. *)
Definition Arrival : Type := string * string * option string * string.

Definition arrive (s : Store) (a : Arrival) : Store :=
  simulatePatientJourney a.1.1.1 a.1.1.2 a.1.2 a.2 s.

(** Arrivals one after the other, as [generateBacklog] awaits them. *)
Definition arrivals (js : list Arrival) (s : Store) : Store := fold_left arrive js s.

(** ** Predicates on stores *)

(** Status updates whose [updates] carry no [id]. *)
Definition keepsVisitId (c : Call) : Prop :=
  match c with
  | UpdateVisitStatus _ _ updates => upd_id updates = None
  | _ => True
  end.

(** Status updates whose [updates] carry no [patient_id]. *)
Definition keepsPatientId (c : Call) : Prop :=
  match c with
  | UpdateVisitStatus _ _ updates => upd_patient_id updates = None
  | _ => True
  end.

(** Status updates whose [updates] carry no [assigned_doctor_id]. *)
Definition keepsAssignment (c : Call) : Prop :=
  match c with
  | UpdateVisitStatus _ _ updates => upd_assigned_doctor_id updates = None
  | _ => True
  end.

(** Patient ids are handed out in order: the patients carry 101, 102,
    103, ... in the order of creation and the counter holds the next
    free id. *)
Record patientIdsInOrder (s : Store) : Prop := mkPatientIdsInOrder {
  patient_ids_seq :
    patient_ident <$> patients s = seqZ 101 (Z.of_nat (length (patients s)));
  next_patient_id : nextPatientId s = (101 + Z.of_nat (length (patients s)))%Z
}.

(** Visit ids are in order: the visits carry 1, 2, 3, ... in the order of
    creation and the counter holds the next free id. *)
Record visitIdsInOrder (s : Store) : Prop := mkVisitIdsInOrder {
  visit_ids_seq : visit_id <$> visits s = seqZ 1 (Z.of_nat (length (visits s)));
  next_visit_id : nextVisitId s = (1 + Z.of_nat (length (visits s)))%Z
}.

(** Every visit names a patient on file. *)
Definition visitPatientsKnown (s : Store) : Prop :=
  Forall (fun v => patient_id v ∈ (patient_ident <$> patients s)) (visits s).

(** What a doctor is: id, name and specialty. *)
Definition doctorIdentity (d : Doctor) : string * string * string :=
  (doctor_id d, doctor_name d, specialty d).

(** What a visit is: its id and its patient. *)
Definition visitIdentity (v : MockVisit) : Z * Z := (visit_id v, patient_id v).

(** Every assigned doctor id is the id of a doctor on the roster. *)
Definition assignedKnown (s : Store) : Prop :=
  forall v did, v ∈ visits s -> assigned_doctor_id v = Some did ->
                did ∈ (doctor_id <$> doctors s).

(** ** The queue of the doctor dashboard ([views/DoctorDashboard.tsx]) *)

(** The fields of a [Session] that the queue reads; [session_priority] is
    [summary?.priority]. *)
Record Session := mkSession {
  session_id : string;
  session_status : string;
  session_priority : option string;
  startTime : Z
}.

(** What reading a property of the object literal [priorityOrder] gives:
    one of its three numbers, a member inherited from [Object.prototype]
    (a function, or the prototype itself for ["__proto__"]), or
    [undefined]. *)
Inductive JsValue := Number (n : Z) | Member (key : string) | Undefined.

#[global] Instance JsValue_eq_dec : EqDecision JsValue.
Proof. solve_decision. Defined.

(** The property names that every object literal inherits. *)
Definition objectPrototypeKeys : list string :=
  [ "constructor"; "hasOwnProperty"; "isPrototypeOf"; "propertyIsEnumerable";
    "toLocaleString"; "toString"; "valueOf"; "__defineGetter__";
    "__defineSetter__"; "__lookupGetter__"; "__lookupSetter__"; "__proto__" ].

(** [priorityOrder[key]] for
    [priorityOrder = { 'Emergency': 3, 'Priority': 2, 'Normal': 1 }]. *)
Definition priorityOrder (key : string) : JsValue :=
  if decide (key = "Emergency") then Number 3
  else if decide (key = "Priority") then Number 2
  else if decide (key = "Normal") then Number 1
  else if decide (key ∈ objectPrototypeKeys) then Member key
  else Undefined.

(** [a.summary?.priority || 'Normal']. *)
Definition priorityKey (a : Session) : string :=
  match session_priority a with
  | Some p => if decide (p = "") then "Normal" else p
  | None => "Normal"
  end.

(** [priorityOrder[...] || 0]: [undefined] gives 0, a number of the
    literal or an inherited member is truthy and stays. *)
Definition priorityRank (a : Session) : JsValue :=
  match priorityOrder (priorityKey a) with
  | Undefined => Number 0
  | x => x
  end.

(** The result of the comparator, a JavaScript number. *)
Inductive Difference := Diff (z : Z) | NaN.

(** The comparator passed to [sort].  [pA !== pB] compares two numbers by
    value and two inherited members by identity (the members of
    [Object.prototype] are pairwise distinct); [pB - pA] is [NaN] unless
    both are numbers. *)
Definition queueCompare (a b : Session) : Difference :=
  let pA := priorityRank a in
  let pB := priorityRank b in
  if decide (pA <> pB) then
    match pA, pB with
    | Number x, Number y => Diff (y - x)
    | _, _ => NaN
    end
  else Diff (startTime a - startTime b).

(** How [sort] reads the result of the comparator: [NaN] counts as 0. *)
Definition sortOrder (d : Difference) : Z :=
  match d with
  | Diff z => z
  | NaN => 0
  end.

(** [Array.prototype.sort] with a comparator: stable, computed by insertion. *)
Fixpoint insertBy {A} (cmp : A -> A -> Z) (x : A) (l : list A) : list A :=
  match l with
  | [] => [x]
  | y :: l' =>
      if decide (cmp x y <= 0)%Z then x :: y :: l' else y :: insertBy cmp x l'
  end.

Definition sortBy {A} (cmp : A -> A -> Z) (l : list A) : list A :=
  foldr (insertBy cmp) [] l.

Definition inQueue (v : Session) : Prop :=
  session_status v = "waiting" \/ session_status v = "assigned".

#[global] Instance inQueue_dec v : Decision (inQueue v).
Proof. unfold inQueue. apply _. Defined.

(** [myQueue]: the waiting sessions, sorted with [queueCompare].  When the
    comparator returns [NaN] for some pair it is not a consistent
    comparator and the language leaves the order that [sort] produces to
    the implementation; the insertion below is then one possible result
    only, and nothing is proved about it. *)
Definition myQueue (allMyVisits : list Session) : list Session :=
  sortBy (fun a b => sortOrder (queueCompare a b)) (filter inQueue allMyVisits).

(** A session whose priority key names no member of [Object.prototype],
    as is every key of the declared type [Priority]. *)
Definition plainPriority (a : Session) : Prop :=
  priorityKey a ∉ objectPrototypeKeys.

(** The rank of a session with a plain priority. *)
Definition rankNumber (a : Session) : Z :=
  match priorityRank a with
  | Number n => n
  | _ => 0
  end.

(** Four sessions of one doctor, one of them already seen. *)
Definition sampleSessions : list Session :=
  [ mkSession "1" "waiting" (Some "Normal") 100;
    mkSession "2" "seen" (Some "Emergency") 150;
    mkSession "3" "waiting" (Some "Emergency") 300;
    mkSession "4" "waiting" None 50 ].

(** A session whose priority key is inherited from [Object.prototype],
    next to a regular one. *)
Definition oddSessions : list Session :=
  [ mkSession "1" "waiting" (Some "Normal") 100;
    mkSession "2" "waiting" (Some "constructor") 200 ].

(** The order the queue is meant to have: by rank from high to low, then
    by start time. *)
Definition queueBefore (a b : Session) : Prop :=
  (rankNumber b < rankNumber a)%Z \/
  (rankNumber a = rankNumber b /\ (startTime a <= startTime b)%Z).

(** ** Backlog arrival times ([generateBacklog]) *)

(** The arrival time of the [i]-th backlog patient between [startMs] and
    [endMs]; [rnd] is the value drawn by [Math.random()]. *)
Definition backlogVisitTime (startMs endMs : Q) (i : Z) (rnd : Q) : Q :=
  let interval := ((endMs - startMs) / 16)%Q in
  let jitter := (rnd * 90000 - 45000)%Q in
  let visitTime := (startMs + inject_Z i * interval + jitter)%Q in
  let visitTime := if Qlt_le_dec visitTime startMs then startMs else visitTime in
  if Qlt_le_dec visitTime endMs then visitTime else (endMs - 1000)%Q.

(** ** The simulation clock ([hooks/useSimulationClock.ts]) *)

(** [class SimulationClock]: the time in milliseconds, the handle of the
    running interval timer ([null] is [None]) and the subscribed callbacks.
    A callback is named by a number; the [Set] keeps each callback once,
    in the order of first subscription. *)
Record SimulationClock := mkClock {
  clock_time : Z;
  intervalId : option Z;
  subscribers : list nat
}.

(** One call [cb(time)] made by the clock. *)
Definition Notification : Type := nat * Z.

(** [start()]: does nothing when a timer handle is already held ([handle]
    is what [window.setInterval] returns; a handle 0 would be falsy). *)
Definition clockStart (handle : Z) (c : SimulationClock) : SimulationClock :=
  match intervalId c with
  | Some h =>
      if decide (h = 0%Z) then mkClock (clock_time c) (Some handle) (subscribers c)
      else c
  | None => mkClock (clock_time c) (Some handle) (subscribers c)
  end.

(** The constructor: 8:00 AM, then [start()]. *)
Definition newClock (eightAm handle : Z) : SimulationClock :=
  clockStart handle (mkClock eightAm None []).

Definition getTime (c : SimulationClock) : Z := clock_time c.

(** The timer callback: one second on, then every subscriber is told. *)
Definition clockTick (c : SimulationClock) : SimulationClock * list Notification :=
  let time := (clock_time c + 1000)%Z in
  (mkClock time (intervalId c) (subscribers c),
   (fun cb => (cb, time)) <$> subscribers c).

(** [subscribe(callback)]: added to the set and told the time at once. *)
Definition clockSubscribe (cb : nat) (c : SimulationClock)
    : SimulationClock * list Notification :=
  (mkClock (clock_time c) (intervalId c)
     (if decide (cb ∈ subscribers c) then subscribers c else subscribers c ++ [cb]),
   [(cb, clock_time c)]).

(** The function returned by [subscribe]: [subscribers.delete(callback)]. *)
Definition clockUnsubscribe (cb : nat) (c : SimulationClock) : SimulationClock :=
  mkClock (clock_time c) (intervalId c) (filter (fun x => x <> cb) (subscribers c)).

Inductive ClockEvent := Tick | Subscribe (cb : nat) | Unsubscribe (cb : nat).

#[global] Instance ClockEvent_eq_dec : EqDecision ClockEvent.
Proof. solve_decision. Defined.

(** The clock and the calls it has made so far, oldest first. *)
Definition clockStep (st : SimulationClock * list Notification) (ev : ClockEvent)
    : SimulationClock * list Notification :=
  match ev with
  | Tick => let r := clockTick st.1 in (r.1, st.2 ++ r.2)
  | Subscribe cb => let r := clockSubscribe cb st.1 in (r.1, st.2 ++ r.2)
  | Unsubscribe cb => (clockUnsubscribe cb st.1, st.2)
  end.

Definition clockRun (evs : list ClockEvent) (st : SimulationClock * list Notification)
    : SimulationClock * list Notification :=
  fold_left clockStep evs st.

(** The number of ticks among the events. *)
Definition ticks (evs : list ClockEvent) : Z :=
  Z.of_nat (length (filter (fun ev => ev = Tick) evs)).

(** The calls made to the callback [cb]. *)
Definition callsTo (cb : nat) (log : list Notification) : list Notification :=
  filter (fun n : Notification => n.1 = cb) log.

(** ** The counters of the admin dashboard ([views/AdminDashboard.tsx]) *)

(** [visits.filter(v => v.status === status).length] over the visits that
    the dashboard fetched. *)
Definition countStatus (status : string) (vs : list APIVisit) : nat :=
  length (filter (fun a => visit_status (api_visit a) = status) vs).

(** [doctors.filter(d => d.status === 'active').length]. *)
Definition countActiveDoctors (ds : list Doctor) : nat :=
  length (filter (fun d => doctor_status d = active) ds).

(** The statuses that the application writes. *)
Definition knownStatus (st : string) : Prop :=
  st = "triage" \/ st = "waiting" \/ st = "in_cabin" \/ st = "seen".

(** Status updates that leave a known status on the visit: the status
    among the [updates] if there is one, else the status argument. *)
Definition writesKnownStatus (c : Call) : Prop :=
  match c with
  | UpdateVisitStatus _ st updates => knownStatus (default st (upd_status updates))
  | _ => True
  end.

(** ** Further concrete stores *)

(** A status update that gives visit 1 the id 2 and keeps the rest. *)
Definition renumberCalls : list Call :=
  [ CreatePatient "Sarah Connor" None; BeginVisit 101;
    UpdateVisitStatus 1 "triage"
      (mkUpdates (Some 2%Z) None None None None None None None) ].

(** One patient checked in and still in triage, every doctor as at start. *)
Definition freshVisitClinic : Store :=
  Eval vm_compute in
    run [ CreatePatient "Sarah Connor" None; BeginVisit 101 ] initialStore.

Example findBestDoctor_initial_neurology :
  findBestDoctor initialDoctors "neurology" "Normal"
  = Some (2%nat, mkDoctor "d_3" "Dr. S. Strange" "Neurology" 0 active).
Proof. vm_compute. reflexivity. Qed.

Example findBestDoctor_initial_emergency :
  findBestDoctor initialDoctors "Cardiology" "Emergency"
  = Some (0%nat, mkDoctor "d_1" "Dr. A. House" "Internal Medicine" 0 active).
Proof. vm_compute. reflexivity. Qed.

(** * Properties of the assignment engine *)

(** ** The active set and the average load *)

Lemma elem_of_activeDoctorsOf (ds : list Doctor) (r : DoctorRef) :
  r ∈ activeDoctorsOf ds <-> ds !! r.1 = Some r.2 /\ doctor_status r.2 = active.
Proof.
  unfold activeDoctorsOf. rewrite list_elem_of_filter, elem_of_lookup_imap.
  split.
  - intros [Hs (i & d & -> & Hl)]. simpl in *. done.
  - intros [Hl Hs]. split; [done|].
    exists r.1, r.2. split; [by destruct r | done].
Qed.

Lemma sumLoad_acc (l : list DoctorRef) (a : Z) :
  fold_left (fun acc (d : DoctorRef) => (acc + currentLoad d.2)%Z) l a
  = (a + sumLoad l)%Z.
Proof.
  unfold sumLoad. revert a.
  induction l as [|x l IH]; intros a; simpl; [lia|].
  rewrite (IH (a + _)%Z), (IH (0 + _)%Z). lia.
Qed.

Lemma sumLoad_cons (x : DoctorRef) (l : list DoctorRef) :
  sumLoad (x :: l) = (currentLoad x.2 + sumLoad l)%Z.
Proof. unfold sumLoad at 1. simpl. apply sumLoad_acc. Qed.

Lemma sumLoad_lower_bound (m : Z) (l : list DoctorRef) :
  (forall x, x ∈ l -> (m <= currentLoad x.2)%Z) ->
  (m * Z.of_nat (length l) <= sumLoad l)%Z.
Proof.
  induction l as [|x l IH]; intros Hm.
  - simpl. unfold sumLoad. simpl. lia.
  - rewrite sumLoad_cons. simpl length.
    assert (m <= currentLoad x.2)%Z by (apply Hm; left).
    assert (m * Z.of_nat (length l) <= sumLoad l)%Z
      by (apply IH; intros y Hy; apply Hm; by right).
    lia.
Qed.

Lemma least_loaded_exists (l : list DoctorRef) :
  l <> [] ->
  exists r, r ∈ l /\ forall x, x ∈ l -> (currentLoad r.2 <= currentLoad x.2)%Z.
Proof.
  induction l as [|a l IH]; [done|]. intros _.
  destruct l as [|b l'].
  - exists a. split; [left|]. intros x Hx. apply list_elem_of_singleton in Hx. by subst.
  - destruct IH as (r & Hr & Hmin); [done|].
    destruct (decide (currentLoad a.2 <= currentLoad r.2)%Z) as [Hle|Hgt].
    + exists a. split; [left|]. intros x Hx.
      apply elem_of_cons in Hx as [->|Hx]; [lia|].
      specialize (Hmin x Hx). lia.
    + exists r. split; [by right|]. intros x Hx.
      apply elem_of_cons in Hx as [->|Hx]; [lia|]. by apply Hmin.
Qed.

(** Comparing a load with the average is comparing integers. *)
Lemma le_averageLoad (m : Z) (l : list DoctorRef) :
  l <> [] ->
  ((inject_Z m <= averageLoad l)%Q <-> (m * Z.of_nat (length l) <= sumLoad l)%Z).
Proof.
  intros Hl. unfold averageLoad.
  assert (0 < Z.of_nat (length l))%Z as Hpos by (destruct l; [done | simpl; lia]).
  assert (0 < inject_Z (Z.of_nat (length l)))%Q as HposQ
    by (rewrite <- (Zlt_Qlt 0); exact Hpos).
  assert (~ inject_Z (Z.of_nat (length l)) == 0)%Q as Hne
    by (intros E; rewrite E in HposQ; by apply Qlt_irrefl in HposQ).
  rewrite Zle_Qle, inject_Z_mult. split.
  - intros H. apply (Qmult_le_r _ _ _ HposQ) in H.
    rewrite (Qmult_comm (_ / _)), Qmult_div_r in H; done.
  - intros H. by apply Qle_shift_div_l.
Qed.

(** ** Emergency override *)

Lemma elem_of_lessBusyOf (avg : Q) (l : list DoctorRef) (r : DoctorRef) :
  r ∈ lessBusyOf avg l <-> (inject_Z (currentLoad r.2) <= avg)%Q /\ r ∈ l.
Proof. unfold lessBusyOf. by rewrite list_elem_of_filter. Qed.

Lemma lessBusyOf_nonempty (activeDoctors : list DoctorRef) :
  activeDoctors <> [] ->
  lessBusyOf (averageLoad activeDoctors) activeDoctors <> [].
Proof.
  intros Hne. destruct (least_loaded_exists _ Hne) as (r & Hr & Hmin).
  assert (r ∈ lessBusyOf (averageLoad activeDoctors) activeDoctors) as Hin.
  { apply elem_of_lessBusyOf. split; [|done].
    apply le_averageLoad; [done|]. by apply sumLoad_lower_bound. }
  intros E. rewrite E in Hin. by apply not_elem_of_nil in Hin.
Qed.

Lemma emergencyCandidates_subset (activeDoctors : list DoctorRef) (r : DoctorRef) :
  r ∈ emergencyCandidates activeDoctors -> r ∈ activeDoctors.
Proof.
  unfold emergencyCandidates. case_decide as Hlen; [|done].
  intros Hr. by apply elem_of_lessBusyOf in Hr as [_ Hr].
Qed.

Lemma emergencyCandidates_nonempty (activeDoctors : list DoctorRef) :
  activeDoctors <> [] -> emergencyCandidates activeDoctors <> [].
Proof.
  intros Hne. unfold emergencyCandidates. case_decide as Hlen; [|done].
  intros E. rewrite E in Hlen. simpl in Hlen. lia.
Qed.

Section MatchLoop.

Variable t : string.

Lemma matchStep_inv (seen : list DoctorRef)
    (b : option DoctorRef) (doc : DoctorRef) :
  matchInv t seen b -> matchInv t (seen ++ [doc]) (matchStep t b doc).
Proof.
  unfold matchInv, matchStep. intros H.
  destruct (decide (isMatch t doc.2)) as [Hm|Hm].
  - destruct b as [r|].
    + destruct H as (Hr & Hrm & Hmin).
      destruct (decide (currentLoad doc.2 < currentLoad r.2)%Z) as [Hlt|Hge].
      * split; [apply elem_of_app; right; left|]. split; [done|].
        intros m Hin Hmm. apply elem_of_app in Hin as [Hin|Hin].
        -- specialize (Hmin m Hin Hmm). lia.
        -- apply list_elem_of_singleton in Hin. subst. lia.
      * split; [apply elem_of_app; by left|]. split; [done|].
        intros m Hin Hmm. apply elem_of_app in Hin as [Hin|Hin].
        -- by apply Hmin.
        -- apply list_elem_of_singleton in Hin. subst. lia.
    + split; [apply elem_of_app; right; left|]. split; [done|].
      intros m Hin Hmm. apply elem_of_app in Hin as [Hin|Hin].
      * by apply H in Hin.
      * apply list_elem_of_singleton in Hin. subst. lia.
  - destruct b as [r|].
    + destruct H as (Hr & Hrm & Hmin).
      split; [apply elem_of_app; by left|]. split; [done|].
      intros m Hin Hmm. apply elem_of_app in Hin as [Hin|Hin].
      * by apply Hmin.
      * apply list_elem_of_singleton in Hin. by subst.
    + intros m Hin. apply elem_of_app in Hin as [Hin|Hin].
      * by apply H.
      * apply list_elem_of_singleton in Hin. by subst.
Qed.

Lemma matchLoop_inv (l seen : list DoctorRef) (b : option DoctorRef) :
  matchInv t seen b -> matchInv t (seen ++ l) (fold_left (matchStep t) l b).
Proof.
  revert seen b. induction l as [|doc l IH]; intros seen b H; simpl.
  - by rewrite app_nil_r.
  - rewrite (cons_middle doc seen l), app_assoc.
    apply IH. by apply matchStep_inv.
Qed.

Lemma matchLoop_spec (l : list DoctorRef) :
  matchInv t l (fold_left (matchStep t) l None).
Proof. apply (matchLoop_inv l [] None). intros m Hm. by apply not_elem_of_nil in Hm. Qed.

End MatchLoop.

(** The head of the sorted array is a least-loaded element. *)
Lemma head_insertByLoad (x : DoctorRef) (l : list DoctorRef) :
  head (insertByLoad x l)
  = match head l with
    | None => Some x
    | Some y => if decide (currentLoad x.2 <= currentLoad y.2)%Z then Some x else Some y
    end.
Proof. destruct l as [|y l]; simpl; [done|]. by case_decide. Qed.

Lemma head_sortByLoad (l : list DoctorRef) :
  match head (sortByLoad l) with
  | None => l = []
  | Some r => r ∈ l /\ forall m, m ∈ l -> (currentLoad r.2 <= currentLoad m.2)%Z
  end.
Proof.
  induction l as [|x l IH]; simpl; [done|].
  rewrite head_insertByLoad.
  destruct (head (sortByLoad l)) as [y|].
  - destruct IH as [Hy Hmin]. case_decide as Hle.
    + split; [left|]. intros m Hm. apply elem_of_cons in Hm as [->|Hm]; [lia|].
      specialize (Hmin m Hm). lia.
    + split; [by right|]. intros m Hm.
      apply elem_of_cons in Hm as [->|Hm]; [lia|]. by apply Hmin.
  - subst l. split; [left|]. intros m Hm.
    apply list_elem_of_singleton in Hm. subst. lia.
Qed.

Lemma emergencyPick_spec (t : string) (activeDoctors : list DoctorRef) :
  activeDoctors <> [] ->
  exists r,
    emergencyPick t activeDoctors = Some r /\
    r ∈ emergencyCandidates activeDoctors /\
    ((exists m, m ∈ emergencyCandidates activeDoctors /\ isMatch t m.2) ->
       isMatch t r.2 /\
       forall m, m ∈ emergencyCandidates activeDoctors -> isMatch t m.2 ->
                 (currentLoad r.2 <= currentLoad m.2)%Z) /\
    ((forall m, m ∈ emergencyCandidates activeDoctors -> ~ isMatch t m.2) ->
       forall m, m ∈ emergencyCandidates activeDoctors ->
                 (currentLoad r.2 <= currentLoad m.2)%Z).
Proof.
  intros Hne. unfold emergencyPick.
  pose proof (matchLoop_spec t (emergencyCandidates activeDoctors)) as Hloop.
  pose proof (head_sortByLoad (emergencyCandidates activeDoctors)) as Hsort.
  pose proof (emergencyCandidates_nonempty _ Hne) as Hcne.
  unfold matchInv in Hloop.
  destruct (fold_left (matchStep t) (emergencyCandidates activeDoctors) None) as [b|].
  - destruct Hloop as (Hb & Hbm & Hmin). exists b. split; [done|]. split; [done|].
    split; [by intros _|]. intros Hno. by apply Hno in Hbm.
  - destruct (head (sortByLoad (emergencyCandidates activeDoctors))) as [r|]; [|done].
    destruct Hsort as [Hr Hmin]. exists r. split; [done|]. split; [done|].
    split; [|by intros _]. intros (m & Hm & Hmm). by apply Hloop in Hmm.
Qed.

(** ** Standard logic *)

Lemma cost_lt_Finite (c q : Q) : cost_lt c (Finite q) = true <-> (c < q)%Q.
Proof.
  simpl. rewrite Qlt_alt. destruct (c ?= q)%Q; split; congruence.
Qed.

Section CostLoop.

Variables (avg : Q) (t : string).

Lemma costStep_inv (seen : list DoctorRef)
    (st : Cost * option DoctorRef) (doc : DoctorRef) :
  costInv avg t seen st -> costInv avg t (seen ++ [doc]) (costStep avg t st doc).
Proof.
  destruct st as [m [r|]]; unfold costInv, costStep; simpl.
  - intros (-> & pre & post & -> & Hpre & Hpost).
    destruct (cost_lt (totalCost avg t doc.2) (Finite (totalCost avg t r.2))) eqn:Hlt;
      simpl.
    + apply cost_lt_Finite in Hlt. split; [done|].
      exists (pre ++ r :: post), []. split; [done|]. split.
      * intros x Hx. apply elem_of_app in Hx as [Hx|Hx].
        -- eapply Qlt_trans; [exact Hlt | by apply Hpre].
        -- apply elem_of_cons in Hx as [->|Hx]; [done|].
           eapply Qlt_le_trans; [exact Hlt | by apply Hpost].
      * intros x Hx. by apply not_elem_of_nil in Hx.
    + assert (~ (totalCost avg t doc.2 < totalCost avg t r.2)%Q) as Hnlt
        by (rewrite <- cost_lt_Finite; congruence).
      apply Qnot_lt_le in Hnlt. split; [done|].
      exists pre, (post ++ [doc]). split; [by rewrite <- app_assoc|]. split; [done|].
      intros x Hx. apply elem_of_app in Hx as [Hx|Hx]; [by apply Hpost|].
      apply list_elem_of_singleton in Hx. by subst.
  - intros [-> ->]. simpl. split; [done|].
    exists [], []. split; [done|].
    split; intros x Hx; by apply not_elem_of_nil in Hx.
Qed.

Lemma costLoop_inv (l seen : list DoctorRef)
    (st : Cost * option DoctorRef) :
  costInv avg t seen st -> costInv avg t (seen ++ l) (fold_left (costStep avg t) l st).
Proof.
  revert seen st. induction l as [|doc l IH]; intros seen st H; simpl.
  - by rewrite app_nil_r.
  - rewrite (cons_middle doc seen l), app_assoc.
    apply IH. by apply costStep_inv.
Qed.

End CostLoop.

Lemma standardPick_spec (t : string) (activeDoctors : list DoctorRef) :
  activeDoctors <> [] ->
  exists pre r post,
    activeDoctors = pre ++ r :: post /\
    standardPick t activeDoctors = Some r /\
    (forall x, x ∈ pre ->
       (totalCost (averageLoad activeDoctors) t r.2
        < totalCost (averageLoad activeDoctors) t x.2)%Q) /\
    (forall x, x ∈ post ->
       (totalCost (averageLoad activeDoctors) t r.2
        <= totalCost (averageLoad activeDoctors) t x.2)%Q).
Proof.
  intros Hne. unfold standardPick.
  pose proof (costLoop_inv (averageLoad activeDoctors) t activeDoctors []
                (Infinity, None)) as H.
  simpl in H. unfold costInv in H.
  destruct (fold_left (costStep (averageLoad activeDoctors) t) activeDoctors
              (Infinity, None)).2 as [r|].
  - destruct H as (_ & pre & post & E & Hpre & Hpost); [done|].
    exists pre, r, post. done.
  - destruct H as [_ E]; done.
Qed.

(** The references of the active doctors come in increasing position. *)
Lemma refs_sorted (ds : list Doctor) (k : nat) :
  StronglySorted before (imap (fun i d => ((k + i)%nat, d)) ds).
Proof.
  revert k. induction ds as [|d ds IH]; intros k; [constructor|].
  rewrite imap_cons. constructor.
  - rewrite (imap_ext _ (fun i d => ((S k + i)%nat, d))); [apply IH|].
    intros i x _. simpl. f_equal. lia.
  - apply Forall_forall. intros x Hx.
    apply elem_of_lookup_imap in Hx as (i & y & -> & _).
    unfold before. simpl. lia.
Qed.

Lemma StronglySorted_filter_refs (P : DoctorRef -> Prop)
    `{forall x, Decision (P x)} (l : list DoctorRef) :
  StronglySorted before l -> StronglySorted before (filter P l).
Proof.
  induction 1 as [|x l Hs IH Hall]; [constructor|].
  rewrite filter_cons. case_decide; [|done].
  constructor; [done|].
  apply Forall_forall. intros y Hy. apply list_elem_of_filter in Hy as [_ Hy].
  rewrite Forall_forall in Hall. by apply Hall.
Qed.

Lemma activeDoctorsOf_sorted (ds : list Doctor) :
  StronglySorted before (activeDoctorsOf ds).
Proof.
  unfold activeDoctorsOf. apply StronglySorted_filter_refs.
  exact (refs_sorted ds 0).
Qed.

(** ** [findBestDoctor] by cases *)

Lemma findBestDoctor_none (ds : list Doctor) (t p : string) :
  activeDoctorsOf ds = [] -> findBestDoctor ds t p = None.
Proof. intros E. unfold findBestDoctor. by rewrite E. Qed.

Lemma findBestDoctor_emergency (ds : list Doctor) (t : string) :
  activeDoctorsOf ds <> [] ->
  findBestDoctor ds t "Emergency" = emergencyPick t (activeDoctorsOf ds).
Proof.
  intros Hne. unfold findBestDoctor.
  destruct (activeDoctorsOf ds) as [|a l]; [done|]. simpl. done.
Qed.

Lemma findBestDoctor_standard (ds : list Doctor) (t p : string) :
  p <> "Emergency" -> activeDoctorsOf ds <> [] ->
  findBestDoctor ds t p = standardPick t (activeDoctorsOf ds).
Proof.
  intros Hp Hne. unfold findBestDoctor.
  destruct (activeDoctorsOf ds) as [|a l]; [done|]. simpl.
  by case_decide.
Qed.

Lemma findBestDoctor_elem_of (ds : list Doctor) (t p : string) :
  match findBestDoctor ds t p with
  | Some r => r ∈ activeDoctorsOf ds
  | None => activeDoctorsOf ds = []
  end.
Proof.
  destruct (decide (activeDoctorsOf ds = [])) as [E|Hne].
  { by rewrite findBestDoctor_none. }
  destruct (decide (p = "Emergency")) as [->|Hp].
  - rewrite findBestDoctor_emergency by done.
    destruct (emergencyPick_spec t _ Hne) as (r & -> & Hr & _).
    by apply emergencyCandidates_subset.
  - rewrite findBestDoctor_standard by done.
    destruct (standardPick_spec t _ Hne) as (pre & r & post & E & -> & _).
    rewrite E. apply elem_of_app. right. left.
Qed.

Lemma toLowerCase_empty (s : string) : toLowerCase s = "" <-> s = "".
Proof. destruct s; simpl; split; congruence. Qed.

(** * Properties of the load ledger *)

(** ** Loads never drop below zero *)

Lemma nonnegLoads_alter_load (f : Z -> Z) (i : nat) (ds : list Doctor) :
  (forall n, (0 <= n)%Z -> (0 <= f n)%Z) ->
  nonnegLoads ds -> nonnegLoads (alter (setLoad f) i ds).
Proof.
  intros Hf H. apply Forall_alter; [done|].
  intros d _ Hd. simpl. by apply Hf.
Qed.

Lemma nonnegLoads_alter_status (st : DoctorStatus) (i : nat) (ds : list Doctor) :
  nonnegLoads ds -> nonnegLoads (alter (setDoctorStatus st) i ds).
Proof. intros H. apply Forall_alter; [done|]. by intros d _ Hd. Qed.

Lemma decrementLoad_nonneg (assigned : option string) (ds : list Doctor) :
  nonnegLoads ds -> nonnegLoads (decrementLoad assigned ds).
Proof.
  intros H. unfold decrementLoad.
  destruct assigned as [did|]; [|done].
  case_decide; [done|].
  destruct (findDoctor did ds) as [[i d]|]; [|done].
  apply nonnegLoads_alter_load; [|done]. intros n _. lia.
Qed.

Lemma call_nonneg (c : Call) (s s' : Store) :
  call c s = Ok s' -> nonnegLoads (doctors s) -> nonnegLoads (doctors s').
Proof.
  intros Hc H. destruct c; simpl in Hc.
  - unfold createPatient in Hc. by simplify_eq.
  - unfold beginVisit in Hc. destruct (list_find _ _); by simplify_eq.
  - unfold finalizeTriage in Hc.
    destruct (findVisit visitId (visits s)) as [[k visit]|]; [|done].
    destruct (findBestDoctor _ _ _) as [[i d]|]; simplify_eq; simpl; [|done].
    apply nonnegLoads_alter_load; [|done]. intros n Hn. lia.
  - unfold updateVisitStatus in Hc.
    destruct (findVisit visitId (visits s)) as [[k visit]|]; by simplify_eq.
  - unfold submitDiagnosis in Hc.
    destruct (findVisit visitId (visits s)) as [[k visit]|]; simplify_eq; simpl.
    by apply decrementLoad_nonneg.
  - unfold addDoctor in Hc. simplify_eq. simpl.
    apply Forall_app. split; [done|]. by repeat constructor.
  - unfold updateDoctorStatus in Hc.
    destruct (findDoctor doctorId (doctors s)) as [[i d]|]; simplify_eq; simpl; [|done].
    by apply nonnegLoads_alter_status.
Qed.

Lemma step_nonneg (c : Call) (s : Store) :
  nonnegLoads (doctors s) -> nonnegLoads (doctors (step s c)).
Proof.
  intros H. unfold step. destruct (call c s) as [s'|msg] eqn:Hc; [|done].
  by eapply call_nonneg.
Qed.

Lemma run_nonneg (cs : list Call) (s : Store) :
  nonnegLoads (doctors s) -> nonnegLoads (doctors (run cs s)).
Proof.
  revert s. induction cs as [|c cs IH]; intros s H; simpl; [done|].
  apply IH. by apply step_nonneg.
Qed.

(** ** Load conservation *)

(** *** Counting *)

Lemma count_cons {A} (P : A -> Prop) `{forall x, Decision (P x)} (x : A) (l : list A) :
  Z.of_nat (length (filter P (x :: l)))
  = (indicator (P x) + Z.of_nat (length (filter P l)))%Z.
Proof.
  rewrite filter_cons. unfold indicator. case_decide; simpl length; lia.
Qed.

Lemma count_app {A} (P : A -> Prop) `{forall x, Decision (P x)} (l1 l2 : list A) :
  Z.of_nat (length (filter P (l1 ++ l2)))
  = (Z.of_nat (length (filter P l1)) + Z.of_nat (length (filter P l2)))%Z.
Proof. rewrite filter_app, length_app. lia. Qed.

Lemma count_insert {A} (P : A -> Prop) `{forall x, Decision (P x)}
    (l : list A) (k : nat) (x y : A) :
  l !! k = Some x ->
  Z.of_nat (length (filter P (<[k:=y]> l)))
  = (Z.of_nat (length (filter P l)) - indicator (P x) + indicator (P y))%Z.
Proof.
  intros Hk. pose proof (lookup_lt_Some _ _ _ Hk) as Hlt.
  rewrite insert_take_drop by done.
  rewrite <- (take_drop_middle l k x Hk) at 3.
  rewrite !count_app, !count_cons. lia.
Qed.

Lemma caseload_insert (did : string) (vs : list MockVisit) (k : nat)
    (v v' : MockVisit) :
  vs !! k = Some v ->
  caseload did (<[k:=v']> vs)
  = (caseload did vs - indicator (assignedOpenTo did v)
     + indicator (assignedOpenTo did v'))%Z.
Proof. apply count_insert. Qed.

Lemma caseload_positive (did : string) (vs : list MockVisit) (k : nat) (v : MockVisit) :
  vs !! k = Some v -> assignedOpenTo did v -> (1 <= caseload did vs)%Z.
Proof.
  intros Hk Hv. unfold caseload.
  rewrite <- (take_drop_middle vs k v Hk), count_app, count_cons.
  unfold indicator. rewrite decide_True by done. lia.
Qed.

(** *** Sums over the roster *)

Lemma sumOver_cons (g : Doctor -> Z) (d : Doctor) (ds : list Doctor) :
  sumOver g (d :: ds) = (g d + sumOver g ds)%Z.
Proof. reflexivity. Qed.

Lemma sumOver_ext (g h : Doctor -> Z) (ds : list Doctor) :
  (forall j d, ds !! j = Some d -> g d = h d) -> sumOver g ds = sumOver h ds.
Proof.
  induction ds as [|d ds IH]; intros E; [done|].
  rewrite !sumOver_cons, (E 0%nat d eq_refl), IH; [done|].
  intros j x Hj. by apply (E (S j)).
Qed.

Lemma sumOver_add (g h : Doctor -> Z) (ds : list Doctor) :
  sumOver (fun d => (g d + h d)%Z) ds = (sumOver g ds + sumOver h ds)%Z.
Proof.
  induction ds as [|d ds IH]; [done|].
  rewrite !sumOver_cons, IH. lia.
Qed.

Lemma sumOver_zero (ds : list Doctor) : sumOver (fun _ => 0%Z) ds = 0%Z.
Proof. induction ds as [|d ds IH]; [done|]. by rewrite sumOver_cons, IH. Qed.

Lemma sumOver_id_indicator (did : string) (ds : list Doctor) :
  NoDup (doctor_id <$> ds) ->
  sumOver (fun d => indicator (doctor_id d = did)) ds
  = indicator (did ∈ (doctor_id <$> ds)).
Proof.
  induction ds as [|d ds IH]; intros Hnd.
  - unfold indicator.
    destruct (decide (did ∈ doctor_id <$> [])) as [Hin|_]; [|done].
    by apply not_elem_of_nil in Hin.
  - rewrite fmap_cons in Hnd. apply NoDup_cons in Hnd as [Hnotin Hnd].
    rewrite sumOver_cons, IH by done. rewrite fmap_cons.
    unfold indicator. destruct (decide (doctor_id d = did)) as [E|Hne].
    + subst did. rewrite decide_False by done.
      rewrite decide_True by left. lia.
    + destruct (decide (did ∈ doctor_id <$> ds)) as [Hin|Hnin].
      * rewrite decide_True by (by right). lia.
      * rewrite decide_False; [lia|].
        intros Hc. apply elem_of_cons in Hc as [Hc|Hc]; congruence.
Qed.

Lemma indicator_True (P : Prop) `{Decision P} : P -> indicator P = 1%Z.
Proof. intros HP. unfold indicator. by rewrite decide_True. Qed.

Lemma indicator_False (P : Prop) `{Decision P} : ~ P -> indicator P = 0%Z.
Proof. intros HP. unfold indicator. by rewrite decide_False. Qed.

Lemma caseload_cons (did : string) (v : MockVisit) (vs : list MockVisit) :
  caseload did (v :: vs) = (indicator (assignedOpenTo did v) + caseload did vs)%Z.
Proof. apply count_cons. Qed.

Lemma openCount_cons (v : MockVisit) (vs : list MockVisit) :
  openCount (v :: vs) = (indicator (openAssigned v) + openCount vs)%Z.
Proof. apply count_cons. Qed.

Lemma sumOver_assigned (v : MockVisit) (ds : list Doctor) :
  NoDup (doctor_id <$> ds) ->
  (forall did, assigned_doctor_id v = Some did -> did ∈ (doctor_id <$> ds)) ->
  sumOver (fun d => indicator (assignedOpenTo (doctor_id d) v)) ds
  = indicator (openAssigned v).
Proof.
  intros Hnd Hknown.
  destruct (decide (openAssigned v)) as [[[did Hdid] Hst]|Hno].
  - rewrite (indicator_True (openAssigned v)) by (split; [by exists did | done]).
    rewrite (sumOver_ext _ (fun d => indicator (doctor_id d = did))).
    + rewrite sumOver_id_indicator by done. apply indicator_True. by apply Hknown.
    + intros j d _. unfold indicator, assignedOpenTo.
      destruct (decide (doctor_id d = did)) as [->|Hne].
      * by rewrite decide_True.
      * rewrite decide_False; [done|]. intros [E _]. congruence.
  - rewrite (indicator_False (openAssigned v)) by done.
    rewrite (sumOver_ext _ (fun _ => 0%Z)); [apply sumOver_zero|].
    intros j d _. apply indicator_False. intros [E Hst]. apply Hno.
    split; [by exists (doctor_id d) | done].
Qed.

Lemma sumOver_caseload (ds : list Doctor) (vs : list MockVisit) :
  NoDup (doctor_id <$> ds) ->
  (forall v did, v ∈ vs -> assigned_doctor_id v = Some did ->
                 did ∈ (doctor_id <$> ds)) ->
  sumOver (fun d => caseload (doctor_id d) vs) ds = openCount vs.
Proof.
  intros Hnd. induction vs as [|v vs IH]; intros Hknown.
  - apply sumOver_zero.
  - rewrite (sumOver_ext _ (fun d => (indicator (assignedOpenTo (doctor_id d) v)
                                      + caseload (doctor_id d) vs)%Z))
      by (intros j d _; apply caseload_cons).
    rewrite sumOver_add, openCount_cons, IH.
    + rewrite sumOver_assigned; [done..|]. intros did. apply Hknown. left.
    + intros v' did Hv'. apply Hknown. by right.
Qed.

(** Under the invariant the loads add up to the open assigned visits. *)
Lemma ledgerInv_conservation (s : Store) :
  ledgerInv s -> totalLoad (doctors s) = openCount (visits s).
Proof.
  intros [Hnd _ Hknown Hloads].
  change (totalLoad (doctors s)) with (sumOver currentLoad (doctors s)).
  rewrite (sumOver_ext _ (fun d => caseload (doctor_id d) (visits s))) by exact Hloads.
  by apply sumOver_caseload.
Qed.

(** *** Lookups in the store *)

Lemma findVisit_Some (vid : Z) (vs : list MockVisit) (k : nat) (v : MockVisit) :
  findVisit vid vs = Some (k, v) -> vs !! k = Some v.
Proof. intros H. by apply list_find_Some in H as [H _]. Qed.

Lemma findDoctor_Some (did : string) (ds : list Doctor) (i : nat) (d : Doctor) :
  findDoctor did ds = Some (i, d) -> ds !! i = Some d /\ doctor_id d = did.
Proof. intros H. by apply list_find_Some in H as (H & E & _). Qed.

Lemma findDoctor_known (did : string) (ds : list Doctor) :
  did ∈ (doctor_id <$> ds) -> exists i d, findDoctor did ds = Some (i, d).
Proof.
  intros Hin. apply list_elem_of_fmap in Hin as (d & -> & Hd).
  destruct (list_find_elem_of (fun x => doctor_id x = doctor_id d) ds d Hd eq_refl)
    as [[i x] Hx].
  by exists i, x.
Qed.

Lemma id_on_roster (ds : list Doctor) (i : nat) (d : Doctor) :
  ds !! i = Some d -> doctor_id d ∈ (doctor_id <$> ds).
Proof. intros H. apply list_elem_of_fmap_2. by eapply list_elem_of_lookup_2. Qed.

Lemma same_id_same_position (ds : list Doctor) (i j : nat) (d d' : Doctor) :
  NoDup (doctor_id <$> ds) ->
  ds !! i = Some d -> ds !! j = Some d' -> doctor_id d = doctor_id d' -> i = j.
Proof.
  intros Hnd Hi Hj E.
  apply (NoDup_lookup _ i j (doctor_id d) Hnd); rewrite list_lookup_fmap.
  - by rewrite Hi.
  - rewrite Hj. simpl. by rewrite E.
Qed.

Lemma ids_alter_load (f : Z -> Z) (i : nat) (ds : list Doctor) :
  doctor_id <$> alter (setLoad f) i ds = doctor_id <$> ds.
Proof.
  rewrite (list_fmap_alter doctor_id (setLoad f) (fun x => x)).
  - by apply list_alter_id.
  - by apply Forall_forall.
Qed.

Lemma ids_alter_status (st : DoctorStatus) (i : nat) (ds : list Doctor) :
  doctor_id <$> alter (setDoctorStatus st) i ds = doctor_id <$> ds.
Proof.
  rewrite (list_fmap_alter doctor_id (setDoctorStatus st) (fun x => x)).
  - by apply list_alter_id.
  - by apply Forall_forall.
Qed.

Lemma elem_of_insert_inv {A} (l : list A) (k : nat) (x y : A) :
  x ∈ <[k:=y]> l -> x = y \/ x ∈ l.
Proof.
  intros H. apply list_elem_of_lookup in H as [j Hj].
  apply list_lookup_insert_Some in Hj as [(_ & -> & _)|[_ Hj]]; [by left|].
  right. by eapply list_elem_of_lookup_2.
Qed.

(** A member of an array after a write is the value written or a member
    of the array before. *)
Ltac written_or_old H := apply elem_of_insert_inv in H as [->|H].

(** Open the [visits.find] of the API function at hand. *)
Ltac found_visit k visit Hf :=
  match goal with
  | _ : context [findVisit ?vid ?vs] |- _ =>
      destruct (findVisit vid vs) as [[k visit]|] eqn:Hf
  | |- context [findVisit ?vid ?vs] =>
      destruct (findVisit vid vs) as [[k visit]|] eqn:Hf
  end.

(** *** Each admissible call keeps the invariant *)

Lemma initialStore_inv : ledgerInv initialStore.
Proof.
  split; simpl.
  - by compute_done.
  - by compute_done.
  - intros v did Hv. by apply not_elem_of_nil in Hv.
  - intros j d Hj. unfold caseload. simpl. unfold initialDoctors in Hj.
    do 6 (destruct j as [|j]; [by simplify_eq/= |]). done.
Qed.

Lemma createPatient_inv (name : string) (ph : option string) (s s' : Store) :
  ledgerInv s -> createPatient name ph s = Ok s' -> ledgerInv s'.
Proof. intros [] E. unfold createPatient in E. simplify_eq. by split. Qed.

Lemma beginVisit_inv (pid : Z) (s s' : Store) :
  ledgerInv s -> beginVisit pid s = Ok s' -> ledgerInv s'.
Proof.
  intros [Hnd Hne Hknown Hloads] E. unfold beginVisit in E.
  destruct (list_find _ _); simplify_eq. split; simpl; [done..| |].
  - intros v did Hv Ha. apply elem_of_app in Hv as [Hv|Hv]; [by eapply Hknown|].
    apply list_elem_of_singleton in Hv. by subst.
  - intros j d Hj. rewrite (Hloads j d Hj). unfold caseload.
    rewrite count_app, count_cons. simpl.
    rewrite indicator_False; [lia|]. by intros [? _].
Qed.

Lemma updateDoctorStatus_inv (did : string) (st : DoctorStatus) (s s' : Store) :
  ledgerInv s -> updateDoctorStatus did st s = Ok s' -> ledgerInv s'.
Proof.
  intros [Hnd Hne Hknown Hloads] E. unfold updateDoctorStatus in E.
  destruct (findDoctor did (doctors s)) as [[i d]|]; simplify_eq; [|by split].
  split; simpl; rewrite ?ids_alter_status; [done..|].
  intros j x Hj. rewrite list_lookup_alter in Hj. case_decide; [|by eapply Hloads].
  subst j. apply fmap_Some in Hj as (y & Hy & ->). simpl. by eapply Hloads.
Qed.

Lemma addDoctor_inv (name spec : string) (st : DoctorStatus) (num : string)
    (s s' : Store) :
  ledgerInv s -> admissibleCall (AddDoctor name spec st num) s ->
  addDoctor name spec st num s = Ok s' -> ledgerInv s'.
Proof.
  intros [Hnd Hne Hknown Hloads] Hadm E. unfold addDoctor in E.
  simpl in Hadm. simplify_eq. split; simpl; rewrite ?fmap_app; simpl.
  - apply NoDup_app. split; [done|]. split; [|apply NoDup_singleton].
    intros x Hx Hx'. apply list_elem_of_singleton in Hx'. by subst.
  - intros Hin. apply elem_of_app in Hin as [Hin|Hin]; [done|].
    apply list_elem_of_singleton in Hin. done.
  - intros v did Hv Ha. apply elem_of_app. left. by eapply Hknown.
  - intros j d Hj. apply lookup_app_Some in Hj as [Hj|[_ Hj]]; [by eapply Hloads|].
    apply list_lookup_singleton_Some in Hj as [_ <-]. simpl.
    unfold caseload.
    assert (filter (assignedOpenTo ("d_" +:+ num)) (visits s) = []) as ->; [|done].
    apply elem_of_nil_inv. intros v Hv.
    apply list_elem_of_filter in Hv as [[Ha _] Hv].
    apply Hadm. by eapply Hknown.
Qed.

Lemma indicator_iff (P Q : Prop) `{Decision P} `{Decision Q} :
  (P <-> Q) -> indicator P = indicator Q.
Proof.
  intros E. unfold indicator.
  destruct (decide P), (decide Q); tauto.
Qed.

Lemma updateVisitStatus_inv (vid : Z) (st : string) (updates : VisitUpdates)
    (s s' : Store) :
  ledgerInv s -> admissibleCall (UpdateVisitStatus vid st updates) s ->
  updateVisitStatus vid st updates s = Ok s' -> ledgerInv s'.
Proof.
  intros [Hnd Hne Hknown Hloads] Hadm E.
  unfold updateVisitStatus in E. cbn [admissibleCall] in Hadm.
  found_visit k visit Hf; simplify_eq.
  apply findVisit_Some in Hf. cbv zeta in Hadm. destruct Hadm as [Hsame Hopen].
  assert (visit ∈ visits s) as Hin by (by eapply list_elem_of_lookup_2).
  split; cbn [doctors visits withVisits]; [done..| |].
  - intros v did Hv Ha. written_or_old Hv.
    + apply (Hknown visit); [done|]. by rewrite <- Hsame.
    + by apply (Hknown v).
  - intros j d Hj. rewrite (Hloads j d Hj), (caseload_insert _ _ _ visit) by done.
    rewrite (indicator_iff
               (assignedOpenTo (doctor_id d)
                  (assignUpdates updates (setVisitStatus st visit)))
               (assignedOpenTo (doctor_id d) visit)); [lia|].
    unfold assignedOpenTo. rewrite Hsame.
    split; intros [Ha Hs]; (split; [done|]); intros Hseen; apply Hs;
      by apply Hopen; [rewrite Ha; eexists|].
Qed.

Lemma finalizeTriage_inv (vid : Z) (summary : TriageSummary)
    (pre : option string) (ai : string) (s s' : Store) :
  ledgerInv s -> admissibleCall (FinalizeTriage vid summary pre ai) s ->
  finalizeTriage vid summary pre ai s = Ok s' -> ledgerInv s'.
Proof.
  intros [Hnd Hne Hknown Hloads] Hadm E.
  unfold finalizeTriage in E. simpl in Hadm.
  found_visit k visit Hf; [|done]. rename Hadm into Hnone.
  apply findVisit_Some in Hf.
  pose proof (findBestDoctor_elem_of (doctors s) (routedSpecialty pre ai)
                (summary_priority summary)) as Hbest.
  destruct (findBestDoctor _ _ _) as [[i chosen]|]; simplify_eq.
  - apply elem_of_activeDoctorsOf in Hbest as [Hi _]. simpl in Hi.
    split; simpl; rewrite ?ids_alter_load; [done..| |].
    + intros v did Hv Ha. written_or_old Hv.
      * simpl in Ha. simplify_eq. by eapply id_on_roster.
      * by apply (Hknown v).
    + intros j d Hj. rewrite (caseload_insert _ _ _ visit) by done.
      rewrite (indicator_False (assignedOpenTo _ visit))
        by (intros [Ha _]; congruence).
      rewrite list_lookup_alter in Hj. case_decide as Hij.
      * subst j. rewrite Hi in Hj. simpl in Hj. simplify_eq. simpl.
        rewrite (Hloads i chosen Hi), indicator_True; [lia|].
        split; [done|]. simpl. done.
      * rewrite (Hloads j d Hj), indicator_False; [lia|].
        intros [Ha _]. simpl in Ha. simplify_eq.
        apply Hij. by eapply same_id_same_position.
  - split; simpl; [done..| |].
    + intros v did Hv Ha. written_or_old Hv.
      * simpl in Ha. congruence.
      * by apply (Hknown v).
    + intros j d Hj. rewrite (Hloads j d Hj), (caseload_insert _ _ _ visit) by done.
      rewrite !indicator_False; [lia|intros [Ha _]..]; simpl in Ha; congruence.
Qed.

(** Under the invariant the decrement of a completion never hits the floor. *)
Lemma decrementLoad_exact (s : Store) (k : nat) (visit : MockVisit) (did : string) :
  ledgerInv s -> visits s !! k = Some visit ->
  assigned_doctor_id visit = Some did -> visit_status visit <> "seen" ->
  exists i d,
    findDoctor did (doctors s) = Some (i, d) /\
    (1 <= currentLoad d)%Z /\
    decrementLoad (Some did) (doctors s)
    = alter (setLoad (fun n => n - 1)%Z) i (doctors s).
Proof.
  intros [Hnd Hne Hknown Hloads] Hk Ha Hst.
  assert (did ∈ doctor_id <$> doctors s) as Hin
    by (eapply Hknown; [by eapply list_elem_of_lookup_2 | done]).
  destruct (findDoctor_known _ _ Hin) as (i & d & Hfd).
  pose proof (findDoctor_Some _ _ _ _ Hfd) as [Hi Hid].
  assert (1 <= currentLoad d)%Z as Hpos.
  { rewrite (Hloads i d Hi), Hid. by eapply caseload_positive. }
  exists i, d. split; [done|]. split; [done|].
  unfold decrementLoad. rewrite decide_False by (intros ->; done). rewrite Hfd.
  apply list_alter_ext; [|done..].
  intros x Hx. simplify_eq. unfold setLoad. f_equal. lia.
Qed.

Lemma submitDiagnosis_inv (vid : Z) (dn notes : string) (s s' : Store) :
  ledgerInv s -> admissibleCall (SubmitDiagnosis vid dn notes) s ->
  submitDiagnosis vid dn notes s = Ok s' -> ledgerInv s'.
Proof.
  intros Hinv Hadm E. pose proof Hinv as [Hnd Hne Hknown Hloads].
  unfold submitDiagnosis in E. simpl in Hadm.
  found_visit k visit Hf; simplify_eq.
  apply findVisit_Some in Hf.
  destruct (assigned_doctor_id visit) as [did|] eqn:Ha.
  - destruct Hadm as [Hadm|Hadm]; [done|].
    destruct (decrementLoad_exact s k visit did Hinv Hf Ha Hadm)
      as (i & d & Hfd & Hpos & ->).
    apply findDoctor_Some in Hfd as [Hi Hid].
    split; simpl; rewrite ?ids_alter_load; [done..| |].
    + intros v did' Hv Ha'. written_or_old Hv.
      * simpl in Ha'. rewrite Ha in Ha'. simplify_eq.
        by eapply id_on_roster.
      * by apply (Hknown v).
    + intros j x Hj. rewrite (caseload_insert _ _ _ visit) by done.
      rewrite (indicator_False (assignedOpenTo _ (setVisitStatus _ _)))
        by (by intros [_ Hs]).
      rewrite list_lookup_alter in Hj. case_decide as Hij.
      * subst j. rewrite Hi in Hj. simpl in Hj. simplify_eq. simpl.
        rewrite (Hloads i d Hi), indicator_True; [lia|]. by split.
      * rewrite (Hloads j x Hj), indicator_False; [lia|].
        intros [Ha' _]. rewrite Ha in Ha'. simplify_eq.
        apply Hij. by eapply same_id_same_position.
  - split; simpl; [done..| |].
    + intros v did' Hv Ha'. written_or_old Hv.
      * simpl in Ha'. congruence.
      * by apply (Hknown v).
    + intros j x Hj. rewrite (Hloads j x Hj), (caseload_insert _ _ _ visit) by done.
      rewrite !indicator_False; [lia|intros [Ha' _]..]; simpl in Ha'; congruence.
Qed.

Lemma call_inv (c : Call) (s s' : Store) :
  ledgerInv s -> admissibleCall c s -> call c s = Ok s' -> ledgerInv s'.
Proof.
  intros Hinv Hadm E. destruct c; simpl in E.
  - by eapply createPatient_inv.
  - by eapply beginVisit_inv.
  - by eapply finalizeTriage_inv.
  - by eapply updateVisitStatus_inv.
  - by eapply submitDiagnosis_inv.
  - by eapply addDoctor_inv.
  - by eapply updateDoctorStatus_inv.
Qed.

Lemma step_inv (c : Call) (s : Store) :
  ledgerInv s -> admissibleCall c s -> ledgerInv (step s c).
Proof.
  intros Hinv Hadm. unfold step.
  destruct (call c s) as [s'|msg] eqn:E; [|done]. by eapply call_inv.
Qed.

Lemma run_inv (cs : list Call) (s : Store) :
  ledgerInv s -> admissible cs s -> ledgerInv (run cs s).
Proof.
  revert s. induction cs as [|c cs IH]; intros s Hinv Hadm; simpl; [done|].
  destruct Hadm as [Hc Hcs]. apply IH; [|done]. by apply step_inv.
Qed.

Lemma totalLoad_cons (d : Doctor) (ds : list Doctor) :
  totalLoad (d :: ds) = (currentLoad d + totalLoad ds)%Z.
Proof. reflexivity. Qed.

Lemma totalLoad_alter (f : Z -> Z) (ds : list Doctor) (i : nat) (d : Doctor) :
  ds !! i = Some d ->
  totalLoad (alter (setLoad f) i ds)
  = (totalLoad ds - currentLoad d + f (currentLoad d))%Z.
Proof.
  revert i. induction ds as [|x ds IH]; intros i Hi; [done|].
  destruct i as [|i]; simpl in Hi.
  - simplify_eq.
    change (alter (setLoad f) 0%nat (d :: ds)) with (setLoad f d :: ds).
    rewrite !totalLoad_cons. simpl. lia.
  - change (alter (setLoad f) (S i) (x :: ds)) with (x :: alter (setLoad f) i ds).
    rewrite !totalLoad_cons, (IH i Hi). lia.
Qed.

Lemma emergencyCandidates_alt (activeDoctors : list DoctorRef) :
  emergencyCandidates activeDoctors
  = let lessBusy :=
      filter (fun d : DoctorRef =>
                (inject_Z (currentLoad d.2) <= averageLoad activeDoctors)%Q)
             activeDoctors in
    if decide (lessBusy = []) then activeDoctors else lessBusy.
Proof.
  unfold emergencyCandidates, lessBusyOf. simpl.
  destruct (filter _ activeDoctors) as [|x l]; [done|].
  repeat case_decide; simpl in *; try done; lia.
Qed.

(** ** The emergency rule of the code and of the specification *)











(** * The claims *)

(** C1.  For every invocation of the single-patient assigner, the chosen
    clinician is on the roster with status [active], or nothing is chosen
    ([null], the "no available clinician" result) and no clinician is
    active.  When no clinician is active, [finalizeTriage] returns with no
    load and no assignment written: the visit goes to "waiting" and keeps
    the assigned doctor id it had, as every other visit does. *)
Theorem assigner_picks_active_or_none (s : Store) (vid : Z)
    (summary : TriageSummary) (pre : option string) (ai t p : string) :
  match findBestDoctor (doctors s) t p with
  | Some r => doctors s !! r.1 = Some r.2 /\ doctor_status r.2 = active
  | None => activeDoctorsOf (doctors s) = []
  end
  /\ (activeDoctorsOf (doctors s) = [] ->
      findBestDoctor (doctors s) t p = None /\
      forall k visit,
        findVisit vid (visits s) = Some (k, visit) ->
        exists s' v',
          finalizeTriage vid summary pre ai s = Ok s' /\
          doctors s' = doctors s /\
          visits s' !! k = Some v' /\
          visit_status v' = "waiting" /\
          assigned_doctor_id v' = assigned_doctor_id visit /\
          assigned_doctor_id <$> visits s' = assigned_doctor_id <$> visits s).
Proof.
  split.
  - pose proof (findBestDoctor_elem_of (doctors s) t p) as H.
    destruct (findBestDoctor (doctors s) t p) as [r|]; [|done].
    by apply elem_of_activeDoctorsOf.
  - intros Hnone. split; [by apply findBestDoctor_none|].
    intros k visit Hf. unfold finalizeTriage.
    rewrite Hf, findBestDoctor_none by done.
    apply findVisit_Some in Hf.
    eexists _, (setTriaged summary (routedSpecialty pre ai) visit).
    split; [done|]. simpl. split; [done|].
    split; [apply list_lookup_insert_eq; by eapply lookup_lt_Some|].
    split; [done|]. split; [done|].
    rewrite list_fmap_insert. simpl. apply list_insert_id.
    by rewrite list_lookup_fmap, Hf.
Qed.

Lemma assigner_picks_active_or_none_witness :
  activeDoctorsOf (doctors closedClinic) = [] /\
  findBestDoctor (doctors closedClinic) "Neurology" "Emergency" = None.
Proof.
  assert (activeDoctorsOf (doctors closedClinic) = []) as Hnone
    by (vm_compute; reflexivity).
  split; [exact Hnone|].
  exact (proj1 (proj2 (assigner_picks_active_or_none closedClinic 1
                         (sampleSummary "Emergency") None "Neurology"
                         "Neurology" "Emergency") Hnone)).
Defined.



(** C10.  In the emergency fast path, whenever an active clinician exists,
    a least-loaded active clinician is at or below the average load, so
    the subset at or below the average is not empty and the candidate set
    is that subset: the fallback to all active clinicians is never taken. *)
Theorem emergency_fallback_never_taken (ds : list Doctor) :
  activeDoctorsOf ds <> [] ->
  let activeDoctors := activeDoctorsOf ds in
  (exists r, r ∈ activeDoctors /\
     (forall x, x ∈ activeDoctors -> (currentLoad r.2 <= currentLoad x.2)%Z) /\
     (inject_Z (currentLoad r.2) <= averageLoad activeDoctors)%Q) /\
  lessBusyOf (averageLoad activeDoctors) activeDoctors <> [] /\
  emergencyCandidates activeDoctors
  = lessBusyOf (averageLoad activeDoctors) activeDoctors.
Proof.
  intros Hne. cbv zeta. split; [|split].
  - destruct (least_loaded_exists _ Hne) as (r & Hr & Hmin).
    exists r. split; [done|]. split; [done|].
    apply le_averageLoad; [done|]. by apply sumLoad_lower_bound.
  - by apply lessBusyOf_nonempty.
  - pose proof (lessBusyOf_nonempty _ Hne) as Hlb. unfold emergencyCandidates.
    cbv zeta. destruct (lessBusyOf _ _) as [|x l]; [done|].
    rewrite decide_True; [done|]. simpl. lia.
Qed.

Lemma emergency_fallback_never_taken_witness :
  activeDoctorsOf initialDoctors <> [] /\
  emergencyCandidates (activeDoctorsOf initialDoctors)
  = lessBusyOf (averageLoad (activeDoctorsOf initialDoctors))
               (activeDoctorsOf initialDoctors).
Proof.
  assert (activeDoctorsOf initialDoctors <> []) as Hne by (vm_compute; discriminate).
  split; [exact Hne|].
  exact (proj2 (proj2 (emergency_fallback_never_taken initialDoctors Hne))).
Defined.




(** C6 (as the spec states it, refuted).  With an empty required specialty
    the mismatch cost of Dr. House is the full penalty, not 0. *)
Lemma empty_requirement_pays_penalty :
  mismatchCost "" (mkDoctor "d_1" "Dr. A. House" "Internal Medicine" 0 active)
  = MISMATCH_PENALTY
  /\ ~ (mismatchCost "" (mkDoctor "d_1" "Dr. A. House" "Internal Medicine" 0 active)
        == 0)%Q.
Proof. split; [reflexivity|]. intros H. vm_compute in H. discriminate H. Qed.

(** C6 (amended).  An empty required specialty goes through the same exact
    match as any other: the mismatch cost is 0 only for a clinician whose
    own specialty is empty and the full penalty for every other one.  The
    assignment proceeds normally: a clinician is chosen unless none is
    active.  In [finalizeTriage] a missing or empty pre-calculated
    specialty is replaced by the answer of the specialty routing. *)
Theorem empty_requirement_is_exact_match (d : Doctor) (ds : list Doctor)
    (p ai : string) :
  mismatchCost "" d = (if decide (specialty d = "") then 0%Q else MISMATCH_PENALTY)
  /\ match findBestDoctor ds "" p with
     | Some r => r ∈ activeDoctorsOf ds
     | None => activeDoctorsOf ds = []
     end
  /\ routedSpecialty None ai = ai
  /\ routedSpecialty (Some "") ai = ai.
Proof.
  split; [|split; [apply findBestDoctor_elem_of | done]].
  unfold mismatchCost, isMatch. simpl.
  destruct (decide (specialty d = "")) as [E|Hne].
  - rewrite decide_True; [done|]. by apply toLowerCase_empty.
  - rewrite decide_False; [done|]. by rewrite toLowerCase_empty.
Qed.

(** C7 (as the spec states it, refuted).  Two active doctors of equal,
    least cost: the one met first in the array is chosen although the other
    has the lower id.  First on a roster listed against the order of ids;
    then on the roster reached from the initial one by four [addDoctor]
    calls, where the ids "d_7.5" and "d_10.5" compare as strings. *)
Lemma tie_not_broken_by_id :
  (let avg := averageLoad (activeDoctorsOf tiedRoster) in
   let grey := mkDoctor "d_2" "Dr. M. Grey" "General Surgery" 0 active in
   let house := mkDoctor "d_1" "Dr. A. House" "General Surgery" 0 active in
   (totalCost avg "General Surgery" grey == 0)%Q /\
   (totalCost avg "General Surgery" house == 0)%Q /\
   String.ltb (doctor_id house) (doctor_id grey) = true /\
   findBestDoctor tiedRoster "General Surgery" "Normal" = Some (0%nat, grey))
  /\
  (let avg := averageLoad (activeDoctorsOf grownRoster) in
   let yang := mkDoctor "d_7.5" "Dr. C. Yang" "Cardiology" 0 active in
   let burke := mkDoctor "d_10.5" "Dr. P. Burke" "Cardiology" 0 active in
   grownRoster !! 6%nat = Some yang /\
   grownRoster !! 9%nat = Some burke /\
   (totalCost avg "Cardiology" yang == 0)%Q /\
   (totalCost avg "Cardiology" burke == 0)%Q /\
   String.ltb (doctor_id burke) (doctor_id yang) = true /\
   findBestDoctor grownRoster "Cardiology" "Normal" = Some (6%nat, yang)).
Proof. vm_compute. repeat split; reflexivity. Qed.

(** C7 (amended).  In the non-emergency assignment the clinician chosen
    has the least cost among the active clinicians and, among those of the
    same least cost, the lowest position in the [doctors] array: ties go to
    the clinician listed first, which makes the selection deterministic. *)
Theorem tie_broken_by_position (ds : list Doctor) (t p : string) :
  p <> "Emergency" -> activeDoctorsOf ds <> [] ->
  let cost := totalCost (averageLoad (activeDoctorsOf ds)) t in
  exists r,
    findBestDoctor ds t p = Some r /\
    r ∈ activeDoctorsOf ds /\
    forall x, x ∈ activeDoctorsOf ds ->
      (cost r.2 <= cost x.2)%Q /\
      ((cost x.2 == cost r.2)%Q -> (r.1 <= x.1)%nat).
Proof.
  intros Hp Hne. cbv zeta. rewrite findBestDoctor_standard by done.
  destruct (standardPick_spec t _ Hne) as (pre & r & post & E & Hr & Hpre & Hpost).
  exists r. split; [done|].
  pose proof (activeDoctorsOf_sorted ds) as Hsorted. rewrite E in Hsorted.
  split; [rewrite E; apply elem_of_app; right; left|].
  intros x Hx. rewrite E in Hx. apply elem_of_app in Hx as [Hx|Hx].
  - split; [by apply Qlt_le_weak, Hpre|].
    intros Heq. specialize (Hpre x Hx). rewrite Heq in Hpre.
    by apply Qlt_irrefl in Hpre.
  - apply elem_of_cons in Hx as [->|Hx]; [split; [apply Qle_refl | lia]|].
    split; [by apply Hpost|]. intros _.
    rewrite (cons_middle r pre post), app_assoc in Hsorted.
    assert (before r x) as Hb.
    { eapply StronglySorted_app_1_elem_of; [exact Hsorted| |exact Hx].
      apply elem_of_app. right. left. }
    unfold before in Hb. lia.
Qed.

Lemma tie_broken_by_position_witness :
  "Normal" <> "Emergency" /\ activeDoctorsOf tiedRoster <> [] /\
  exists r, findBestDoctor tiedRoster "General Surgery" "Normal" = Some r.
Proof.
  assert ("Normal" <> "Emergency") as Hp by discriminate.
  assert (activeDoctorsOf tiedRoster <> []) as Hne by (vm_compute; discriminate).
  split; [exact Hp|]. split; [exact Hne|].
  destruct (tie_broken_by_position tiedRoster "General Surgery" "Normal" Hp Hne)
    as (r & Hr & _).
  by exists r.
Defined.

(** C8.  For a fixed average load, of two clinicians with the same
    specialty the one with the higher load has the strictly larger
    estimated wait and a total cost that is not lower. *)
Theorem cost_monotone_in_load (avgLoad : Q) (t : string) (lo hi : Doctor) :
  specialty lo = specialty hi ->
  (currentLoad lo < currentLoad hi)%Z ->
  (estimatedWait lo < estimatedWait hi)%Q /\
  (totalCost avgLoad t lo <= totalCost avgLoad t hi)%Q.
Proof.
  intros Hs Hl.
  assert (inject_Z (currentLoad lo) < inject_Z (currentLoad hi))%Q as HlQ
    by (by rewrite <- Zlt_Qlt).
  assert (estimatedWait lo < estimatedWait hi)%Q as Hw.
  { unfold estimatedWait, AVG_SERVICE_TIME. apply Qmult_lt_compat_r; [reflexivity|done]. }
  split; [done|].
  unfold totalCost.
  assert (mismatchCost t lo = mismatchCost t hi) as ->.
  { unfold mismatchCost.
    destruct (decide (isMatch t lo)) as [Ha|Ha], (decide (isMatch t hi)) as [Hb|Hb];
      try done; unfold isMatch in *; congruence. }
  apply Qplus_le_compat; [apply Qplus_le_compat; [apply Qle_refl | by apply Qlt_le_weak]|].
  unfold loadPenalty, LOAD_PENALTY_WEIGHT.
  apply Qmult_le_compat_r; [|discriminate].
  apply Q.max_le_compat_l.
  apply Qplus_le_compat; [by apply Qlt_le_weak | apply Qle_refl].
Qed.

Lemma cost_monotone_in_load_witness :
  (estimatedWait (mkDoctor "d_1" "Dr. A. House" "Internal Medicine" 1 active)
   < estimatedWait (mkDoctor "d_4" "Dr. J. Dorian" "Internal Medicine" 3 active))%Q.
Proof.
  apply (proj1 (cost_monotone_in_load (4 # 5) "Neurology"
           (mkDoctor "d_1" "Dr. A. House" "Internal Medicine" 1 active)
           (mkDoctor "d_4" "Dr. J. Dorian" "Internal Medicine" 3 active)
           eq_refl eq_refl)).
Defined.

(** C9.  Whatever calls are made, in any order, on a store whose loads are
    non-negative, every load is a non-negative integer afterwards; the
    decrement of [submitDiagnosis] leaves a load of 0 at 0. *)
Theorem loads_never_negative (cs : list Call) (s : Store) :
  (forall d, d ∈ doctors s -> (0 <= currentLoad d)%Z) ->
  (forall d, d ∈ doctors (run cs s) -> (0 <= currentLoad d)%Z) /\
  (forall d, currentLoad d = 0%Z ->
             currentLoad (setLoad (fun n => Z.max 0 (n - 1)) d) = 0%Z).
Proof.
  intros H. split.
  - apply Forall_forall. apply run_nonneg. by apply Forall_forall.
  - intros d Hd. simpl. rewrite Hd. reflexivity.
Qed.

Lemma loads_never_negative_witness :
  (forall d, d ∈ doctors initialStore -> (0 <= currentLoad d)%Z) /\
  (forall d, d ∈ doctors (run doubleSubmit initialStore) -> (0 <= currentLoad d)%Z).
Proof.
  assert (forall d, d ∈ doctors initialStore -> (0 <= currentLoad d)%Z) as H.
  { apply Forall_forall. unfold initialStore, initialDoctors. simpl.
    repeat constructor; simpl; lia. }
  split; [exact H|].
  exact (proj1 (loads_never_negative doubleSubmit initialStore H)).
Defined.

(** C5 (as the spec states it, refuted).  [finalizeTriage] accepts a visit
    that is already assigned: finalising the same visit twice leaves two
    loads of 1 and a single open assigned visit. *)
Lemma double_finalize_breaks_conservation :
  let s := run doubleFinalize initialStore in
  currentLoad <$> doctors s = [1; 0; 0; 1; 0; 0]%Z /\
  assigned_doctor_id <$> visits s = [Some "d_4"] /\
  totalLoad (doctors s) = 2%Z /\
  openCount (visits s) = 1%Z.
Proof. vm_compute. repeat split; reflexivity. Qed.

(** C5 (amended).  For any sequence of calls from the empty clinic in
    which triage is finalised only for visits that have no clinician yet,
    a diagnosis is submitted only for visits that are not yet seen or have
    no clinician, a status update leaves the assigned clinician of the
    visit as it is and neither completes nor reopens a visit that has one,
    and new doctors get unused ids: the sum of the loads equals the number
    of visits that have an assigned clinician and are not completed, and
    each load is the number of such visits assigned to that clinician; a
    successful assignment adds exactly one to the load of the chosen
    clinician and the completion of an open assigned visit takes exactly
    one from the load of its clinician. *)
Theorem load_conservation (cs : list Call) :
  admissible cs initialStore ->
  let s := run cs initialStore in
  totalLoad (doctors s) = openCount (visits s)
  /\ (forall j d, doctors s !! j = Some d ->
        currentLoad d = caseload (doctor_id d) (visits s))
  /\ (forall vid summary pre ai k visit i chosen,
        findVisit vid (visits s) = Some (k, visit) ->
        findBestDoctor (doctors s) (routedSpecialty pre ai)
          (summary_priority summary) = Some (i, chosen) ->
        let s' := step s (FinalizeTriage vid summary pre ai) in
        doctors s !! i = Some chosen /\
        doctors s' = alter (setLoad (fun n => n + 1)%Z) i (doctors s) /\
        totalLoad (doctors s') = (totalLoad (doctors s) + 1)%Z)
  /\ (forall vid dn notes k visit did,
        findVisit vid (visits s) = Some (k, visit) ->
        visit_status visit <> "seen" ->
        assigned_doctor_id visit = Some did ->
        let s' := step s (SubmitDiagnosis vid dn notes) in
        exists i d,
          findDoctor did (doctors s) = Some (i, d) /\
          doctors s' = alter (setLoad (fun n => n - 1)%Z) i (doctors s) /\
          totalLoad (doctors s') = (totalLoad (doctors s) - 1)%Z).
Proof.
  intros Hadm. cbv zeta.
  pose proof (run_inv cs initialStore initialStore_inv Hadm) as Hinv.
  set (s := run cs initialStore) in *.
  split; [by apply ledgerInv_conservation|].
  split; [by destruct Hinv|].
  split.
  - intros vid summary pre ai k visit i chosen Hf Hbest.
    pose proof (findBestDoctor_elem_of (doctors s) (routedSpecialty pre ai)
                  (summary_priority summary)) as Hin.
    rewrite Hbest in Hin. apply elem_of_activeDoctorsOf in Hin as [Hi _].
    simpl in Hi. split; [done|].
    unfold step. simpl. unfold finalizeTriage. rewrite Hf, Hbest. simpl.
    split; [done|]. rewrite (totalLoad_alter _ _ _ _ Hi). lia.
  - intros vid dn notes k visit did Hf Hst Ha.
    pose proof (findVisit_Some _ _ _ _ Hf) as Hk.
    destruct (decrementLoad_exact s k visit did Hinv Hk Ha Hst)
      as (i & d & Hfd & Hpos & Hdec).
    exists i, d. split; [done|].
    unfold step. cbn [call]. unfold submitDiagnosis. rewrite Hf, Ha.
    cbn [doctors]. rewrite Hdec. split; [done|].
    apply findDoctor_Some in Hfd as [Hi _].
    rewrite (totalLoad_alter _ _ _ _ Hi). lia.
Qed.

Lemma load_conservation_witness :
  admissible oneDay initialStore /\
  totalLoad (doctors (run oneDay initialStore))
  = openCount (visits (run oneDay initialStore)).
Proof.
  assert (admissible oneDay initialStore) as Hadm.
  { vm_compute.
    repeat match goal with
           | |- _ /\ _ => split
           | |- _ <-> _ => split
           | |- _ -> _ => intros ?
           end; try reflexivity; try discriminate; try exact I.
    right. discriminate. }
  split; [exact Hadm|].
  exact (proj1 (load_conservation oneDay Hadm)).
Defined.


(** ** Assignments are made at triage only *)

Lemma lookup_insert_assigned (vs : list MockVisit) (k k' : nat)
    (v visit new : MockVisit) :
  vs !! k = Some v -> vs !! k' = Some visit ->
  (k' = k -> assigned_doctor_id new = assigned_doctor_id visit) ->
  exists v', <[k':=new]> vs !! k = Some v' /\
             assigned_doctor_id v' = assigned_doctor_id v.
Proof.
  intros Hk Hk' Hsame. destruct (decide (k' = k)) as [->|Hne].
  - exists new. split.
    + apply list_lookup_insert_eq. by eapply lookup_lt_Some.
    + rewrite Hsame by done. congruence.
  - exists v. split; [|done]. by rewrite list_lookup_insert_ne.
Qed.

Lemma step_keeps_assignment (s : Store) (c : Call) (k : nat) (v : MockVisit) :
  visits s !! k = Some v -> sparesVisit c s k ->
  exists v', visits (step s c) !! k = Some v' /\
             assigned_doctor_id v' = assigned_doctor_id v.
Proof.
  intros Hk Hsp. unfold step. destruct c; simpl in *.
  - by exists v.
  - unfold beginVisit. destruct (list_find _ _); simpl; [|by exists v].
    exists v. split; [|done]. apply lookup_app_l_Some. done.
  - unfold finalizeTriage.
    destruct (findVisit visitId (visits s)) as [[k' visit]|] eqn:Hf; [|by exists v].
    apply findVisit_Some in Hf.
    destruct (findBestDoctor _ _ _) as [[i chosen]|]; simpl;
      by eapply lookup_insert_assigned.
  - unfold updateVisitStatus.
    destruct (findVisit visitId (visits s)) as [[k' visit]|] eqn:Hf; [|by exists v].
    apply findVisit_Some in Hf. cbn [visits withVisits].
    eapply lookup_insert_assigned; [done..|].
    intros ->. destruct Hsp as [Hnone|Hne]; [|done].
    simpl. by rewrite Hnone.
  - unfold submitDiagnosis.
    destruct (findVisit visitId (visits s)) as [[k' visit]|] eqn:Hf; [|by exists v].
    apply findVisit_Some in Hf. simpl. by eapply lookup_insert_assigned.
  - by exists v.
  - unfold updateDoctorStatus.
    destruct (findDoctor doctorId (doctors s)) as [[i d]|]; by exists v.
Qed.

Lemma crowdedClinic_reached : crowdedClinic = run crowdingCalls initialStore.
Proof. vm_compute. reflexivity. Qed.

Lemma closedClinic_reached : closedClinic = run closingCalls initialStore.
Proof. vm_compute. reflexivity. Qed.

Lemma grownRoster_reached : grownRoster = doctors (run hiringCalls initialStore).
Proof. vm_compute. reflexivity. Qed.

Lemma namesNoDoctor_spares (c : Call) (s : Store) (k : nat) :
  namesNoDoctor c -> sparesVisit c s k.
Proof. destruct c; simpl; try done. by left. Qed.

(** A status update writes the visit only: the roster stays as it is. *)
Lemma updateVisitStatus_keeps_roster (s : Store) (vid : Z) (st : string)
    (updates : VisitUpdates) :
  doctors (step s (UpdateVisitStatus vid st updates)) = doctors s.
Proof.
  unfold step. simpl. unfold updateVisitStatus.
  by destruct (findVisit vid (visits s)) as [[k visit]|].
Qed.

(** The [updates] of a status update can name another clinician: the
    visit is repointed by hand, and no load follows it. *)
Example status_update_can_repoint_a_visit :
  let s := step crowdedClinic (UpdateVisitStatus 1 "waiting" (repointTo "d_4")) in
  assigned_doctor_id <$> visits s = [Some "d_4"; Some "d_1"] /\
  currentLoad <$> doctors s = [2; 0; 0; 0; 0; 0]%Z /\
  caseload "d_1" (visits s) = 1%Z /\ caseload "d_4" (visits s) = 1%Z.
Proof. vm_compute. repeat split; reflexivity. Qed.

(** C4 (as the spec states it, refuted).  Two waiting visits sit with
    Dr. House (load 2) while Dr. Dorian, of the same specialty and idle,
    is active again: moving one visit lowers the summed cost, yet every
    call that does not itself name a clinician for a visit (it is neither
    a [finalizeTriage] nor a status update carrying an
    [assigned_doctor_id]) leaves both visits with Dr. House, and no status
    update changes a load.  No call rebalances. *)
Lemma crowded_clinic_is_never_rebalanced :
  let s := crowdedClinic in
  let avg := averageLoad (activeDoctorsOf (doctors s)) in
  let house := mkDoctor "d_1" "Dr. A. House" "Internal Medicine" 2 active in
  let dorian := mkDoctor "d_4" "Dr. J. Dorian" "Internal Medicine" 0 active in
  doctors s !! 0%nat = Some house /\
  doctors s !! 3%nat = Some dorian /\
  visit_status <$> visits s = ["waiting"; "waiting"] /\
  priority <$> visits s = ["Normal"; "Normal"] /\
  ai_assigned_specialty <$> visits s
    = [Some "Internal Medicine"; Some "Internal Medicine"] /\
  assigned_doctor_id <$> visits s = [Some "d_1"; Some "d_1"] /\
  (totalCost avg "Internal Medicine" house + totalCost avg "Internal Medicine" dorian
   < totalCost avg "Internal Medicine" house + totalCost avg "Internal Medicine" house)%Q /\
  (forall c, namesNoDoctor c ->
     take 2 (assigned_doctor_id <$> visits (step s c)) = [Some "d_1"; Some "d_1"]) /\
  (forall vid st updates,
     doctors (step s (UpdateVisitStatus vid st updates)) = doctors s).
Proof.
  cbv zeta. do 7 (split; [vm_compute; reflexivity|]).
  split; [|intros vid st updates; apply updateVisitStatus_keeps_roster].
  intros c Hc.
  destruct (step_keeps_assignment crowdedClinic c 0%nat _ eq_refl
              (namesNoDoctor_spares c _ _ Hc)) as (v0 & Hv0 & Ha0).
  destruct (step_keeps_assignment crowdedClinic c 1%nat _ eq_refl
              (namesNoDoctor_spares c _ _ Hc)) as (v1 & Hv1 & Ha1).
  destruct (visits (step crowdedClinic c)) as [|x0 [|x1 l]]; simplify_eq/=.
  by rewrite Ha0, Ha1.
Qed.

(** C4 (amended).  There is no batch rebalancer.  The clinician recorded
    on a visit changes only when the triage of that very visit is
    finalised, or when a status update of that very visit carries an
    [assigned_doctor_id] among its updates: every other call leaves every
    prior assignment intact.  A status update, whatever its updates,
    leaves every clinician and every load as it was, so it rebalances
    nothing.  The only failures are the three "not found" errors; none is
    an infeasible batch. *)
Theorem assignment_changes_only_when_written (s : Store) (c : Call)
    (k : nat) (v : MockVisit) :
  visits s !! k = Some v ->
  sparesVisit c s k ->
  (exists v', visits (step s c) !! k = Some v' /\
              assigned_doctor_id v' = assigned_doctor_id v) /\
  (forall vid st updates,
     doctors (step s (UpdateVisitStatus vid st updates)) = doctors s) /\
  (forall msg, call c s = Throw msg ->
     msg = "Visit not found to finalize" \/ msg = "Visit not found" \/
     msg = "Patient not found for new visit").
Proof.
  intros Hk Hsp. split; [by apply step_keeps_assignment|].
  split; [intros vid st updates; apply updateVisitStatus_keeps_roster|].
  intros msg E. destruct c; simpl in E.
  - done.
  - unfold beginVisit in E. destruct (list_find _ _); simplify_eq. auto.
  - unfold finalizeTriage in E.
    destruct (findVisit visitId (visits s)) as [[k' visit]|]; [|simplify_eq; auto].
    by destruct (findBestDoctor _ _ _) as [[i chosen]|].
  - unfold updateVisitStatus in E.
    destruct (findVisit visitId (visits s)) as [[k' visit]|]; simplify_eq. auto.
  - unfold submitDiagnosis in E.
    destruct (findVisit visitId (visits s)) as [[k' visit]|]; simplify_eq. auto.
  - done.
  - unfold updateDoctorStatus in E.
    by destruct (findDoctor doctorId (doctors s)) as [[i d]|].
Qed.

Lemma assignment_changes_only_when_written_witness :
  sparesVisit (UpdateVisitStatus 2 "in_cabin" (repointTo "d_4")) crowdedClinic 0 /\
  exists v',
    visits (step crowdedClinic (UpdateVisitStatus 2 "in_cabin" (repointTo "d_4")))
      !! 0%nat = Some v' /\
    assigned_doctor_id v' = Some "d_1".
Proof.
  assert (sparesVisit (UpdateVisitStatus 2 "in_cabin" (repointTo "d_4"))
            crowdedClinic 0) as Hsp.
  { right. vm_compute. discriminate. }
  split; [exact Hsp|].
  exact (proj1 (assignment_changes_only_when_written crowdedClinic
                  (UpdateVisitStatus 2 "in_cabin" (repointTo "d_4")) 0%nat _
                  eq_refl Hsp)).
Defined.


(** * Further properties of the assignment engine *)

Lemma averageLoad_nonneg (l : list DoctorRef) :
  l <> [] ->
  (forall x, x ∈ l -> (0 <= currentLoad x.2)%Z) ->
  (0 <= averageLoad l)%Q.
Proof.
  intros Hne Hpos. change 0%Q with (inject_Z 0).
  apply le_averageLoad; [done|]. by apply sumLoad_lower_bound.
Qed.

(** The chosen doctor of the standard logic has the least cost. *)
Lemma standardPick_least (t : string) (activeDoctors : list DoctorRef) (r : DoctorRef) :
  standardPick t activeDoctors = Some r ->
  activeDoctors <> [] ->
  r ∈ activeDoctors /\
  forall x, x ∈ activeDoctors ->
    (totalCost (averageLoad activeDoctors) t r.2
     <= totalCost (averageLoad activeDoctors) t x.2)%Q.
Proof.
  intros Hr Hne.
  destruct (standardPick_spec t _ Hne) as (pre & r' & post & E & Hr' & Hpre & Hpost).
  assert (r' = r) as -> by congruence. clear Hr'. subst activeDoctors.
  split; [apply elem_of_app; right; left|].
  intros x Hx.
  apply elem_of_app in Hx as [Hx|Hx]; [by apply Qlt_le_weak, Hpre|].
  apply elem_of_cons in Hx as [->|Hx]; [apply Qle_refl | by apply Hpost].
Qed.

Lemma loadPenalty_nonneg (avg : Q) (d : Doctor) : (0 <= loadPenalty avg d)%Q.
Proof.
  unfold loadPenalty, LOAD_PENALTY_WEIGHT.
  apply Qmult_le_0_compat; [apply Q.le_max_l | discriminate].
Qed.

Lemma loadPenalty_upper (avg : Q) (d : Doctor) :
  (0 <= avg)%Q -> (0 <= currentLoad d)%Z ->
  (loadPenalty avg d <= inject_Z (currentLoad d) * 300)%Q.
Proof.
  intros Havg Hd. unfold loadPenalty, LOAD_PENALTY_WEIGHT.
  apply Qmult_le_compat_r; [|discriminate].
  assert (0 <= inject_Z (currentLoad d))%Q by (by rewrite <- (Zle_Qle 0)).
  apply Q.max_lub; [done|]. lra.
Qed.

Lemma mismatchCost_match (t : string) (d : Doctor) :
  isMatch t d -> mismatchCost t d = 0%Q.
Proof. intros H. unfold mismatchCost. by rewrite decide_True. Qed.

Lemma mismatchCost_mismatch (t : string) (d : Doctor) :
  ~ isMatch t d -> mismatchCost t d = MISMATCH_PENALTY.
Proof. intros H. unfold mismatchCost. by rewrite decide_False. Qed.

(** X15.  In the standard logic a request is given a doctor of the
    required specialty whenever an active one has at most eight
    patients. *)
Theorem specialist_within_eight_wins (ds : list Doctor) (t p : string)
    (m r : DoctorRef) :
  p <> "Emergency" ->
  (forall x, x ∈ activeDoctorsOf ds -> (0 <= currentLoad x.2)%Z) ->
  m ∈ activeDoctorsOf ds -> isMatch t m.2 -> (currentLoad m.2 <= 8)%Z ->
  findBestDoctor ds t p = Some r ->
  isMatch t r.2.
Proof.
  intros Hp Hpos Hm Hmm Hm8 Hr.
  assert (activeDoctorsOf ds <> []) as Hne.
  { intros E. rewrite E in Hm. by apply not_elem_of_nil in Hm. }
  rewrite findBestDoctor_standard in Hr by done.
  destruct (standardPick_least t _ r Hr Hne) as [Hrin Hleast].
  specialize (Hleast m Hm).
  pose proof (averageLoad_nonneg _ Hne Hpos) as Havg.
  destruct (decide (isMatch t r.2)) as [|Hrm]; [done|exfalso].
  unfold totalCost in Hleast.
  rewrite (mismatchCost_match t m.2 Hmm), (mismatchCost_mismatch t r.2 Hrm) in Hleast.
  pose proof (loadPenalty_nonneg (averageLoad (activeDoctorsOf ds)) r.2) as Hlr.
  pose proof (loadPenalty_upper (averageLoad (activeDoctorsOf ds)) m.2 Havg
                (Hpos m Hm)) as Hlm.
  assert (0 <= inject_Z (currentLoad r.2))%Q as Hr0
    by (rewrite <- (Zle_Qle 0); by apply Hpos).
  assert (inject_Z (currentLoad m.2) <= 8)%Q as Hm8Q
    by (change 8%Q with (inject_Z 8); by rewrite <- Zle_Qle).
  unfold estimatedWait, AVG_SERVICE_TIME, MISMATCH_PENALTY in Hleast.
  lra.
Qed.

Lemma specialist_within_eight_wins_witness :
  isMatch "neurology" (mkDoctor "d_3" "Dr. S. Strange" "Neurology" 0 active).
Proof.
  apply (specialist_within_eight_wins initialDoctors "neurology" "Normal"
           (2%nat, mkDoctor "d_3" "Dr. S. Strange" "Neurology" 0 active)
           (2%nat, mkDoctor "d_3" "Dr. S. Strange" "Neurology" 0 active)).
  - discriminate.
  - intros x Hx. apply elem_of_activeDoctorsOf in Hx as [Hx _].
    destruct x as [i d]. simpl in *. unfold initialDoctors in Hx.
    do 6 (destruct i as [|i]; [by simplify_eq/= |]). done.
  - apply elem_of_activeDoctorsOf. by split.
  - reflexivity.
  - simpl. lia.
  - vm_compute. reflexivity.
Defined.

(** With the specialist at load 9 and three idle colleagues the penalty
    no longer dominates: the bound 8 cannot be raised. *)
Example specialist_at_nine_loses :
  findBestDoctor
    [ mkDoctor "d_3" "Dr. S. Strange" "Neurology" 9 active;
      mkDoctor "d_1" "Dr. A. House" "Internal Medicine" 0 active;
      mkDoctor "d_2" "Dr. M. Grey" "General Surgery" 0 active;
      mkDoctor "d_6" "Dr. L. Cuddy" "Endocrinology" 0 active ]
    "Neurology" "Normal"
  = Some (1%nat, mkDoctor "d_1" "Dr. A. House" "Internal Medicine" 0 active).
Proof. vm_compute. reflexivity. Qed.

Lemma totalCost_lt_load (avg : Q) (t : string) (a b : Doctor) :
  mismatchCost t a = mismatchCost t b ->
  (currentLoad a < currentLoad b)%Z ->
  (totalCost avg t a < totalCost avg t b)%Q.
Proof.
  intros Hm Hl. unfold totalCost. rewrite Hm.
  assert (inject_Z (currentLoad a) < inject_Z (currentLoad b))%Q as HlQ
    by (by rewrite <- Zlt_Qlt).
  assert (loadPenalty avg a <= loadPenalty avg b)%Q as Hp.
  { unfold loadPenalty, LOAD_PENALTY_WEIGHT.
    apply Qmult_le_compat_r; [|discriminate].
    apply Q.max_le_compat_l. lra. }
  unfold estimatedWait, AVG_SERVICE_TIME. lra.
Qed.

Lemma totalCost_eq_load (avg : Q) (t : string) (a b : Doctor) :
  mismatchCost t a = mismatchCost t b ->
  currentLoad a = currentLoad b ->
  totalCost avg t a = totalCost avg t b.
Proof.
  intros Hm Hl. unfold totalCost, estimatedWait, loadPenalty. by rewrite Hm, Hl.
Qed.

(** X16.  In the standard logic, when no active doctor has the required
    specialty, the first of the least-loaded active doctors is chosen. *)
Theorem unmatched_goes_to_least_loaded (ds : list Doctor) (t p : string)
    (r : DoctorRef) :
  p <> "Emergency" ->
  (forall x, x ∈ activeDoctorsOf ds -> ~ isMatch t x.2) ->
  findBestDoctor ds t p = Some r ->
  r ∈ activeDoctorsOf ds /\
  forall x, x ∈ activeDoctorsOf ds ->
    (currentLoad r.2 <= currentLoad x.2)%Z /\
    (currentLoad x.2 = currentLoad r.2 -> (r.1 <= x.1)%nat).
Proof.
  intros Hp Hno Hr.
  assert (activeDoctorsOf ds <> []) as Hne.
  { intros E. by rewrite findBestDoctor_none in Hr. }
  rewrite findBestDoctor_standard in Hr by done.
  destruct (standardPick_spec t _ Hne) as (pre & r' & post & E & Hr' & Hpre & Hpost).
  assert (r' = r) as -> by congruence. clear Hr'.
  pose proof (activeDoctorsOf_sorted ds) as Hsorted.
  set (avg := averageLoad (activeDoctorsOf ds)) in *.
  assert (r ∈ activeDoctorsOf ds) as Hrin
    by (rewrite E; apply elem_of_app; right; left).
  assert (forall x, x ∈ activeDoctorsOf ds -> mismatchCost t x.2 = mismatchCost t r.2)
    as Hsame.
  { intros x Hx. by rewrite !mismatchCost_mismatch by (by apply Hno). }
  split; [done|]. intros x Hx. pose proof (Hsame x Hx) as Hmx.
  rewrite E in Hx, Hsorted. apply elem_of_app in Hx as [Hx|Hx].
  - specialize (Hpre x Hx).
    destruct (Z.lt_trichotomy (currentLoad x.2) (currentLoad r.2)) as [Hlt|[Heq|Hgt]].
    + pose proof (totalCost_lt_load avg t x.2 r.2 Hmx Hlt) as Hc. lra.
    + rewrite (totalCost_eq_load avg t x.2 r.2 Hmx Heq) in Hpre.
      by apply Qlt_irrefl in Hpre.
    + split; lia.
  - apply elem_of_cons in Hx as [->|Hx]; [split; lia|].
    specialize (Hpost x Hx). split.
    + destruct (decide (currentLoad x.2 < currentLoad r.2)%Z) as [Hlt|]; [|lia].
      pose proof (totalCost_lt_load avg t x.2 r.2 Hmx Hlt) as Hc. lra.
    + intros _. rewrite (cons_middle r pre post), app_assoc in Hsorted.
      assert (before r x) as Hb.
      { eapply StronglySorted_app_1_elem_of; [exact Hsorted| |exact Hx].
        apply elem_of_app. right. left. }
      unfold before in Hb. lia.
Qed.

Lemma unmatched_goes_to_least_loaded_witness :
  (0%nat, mkDoctor "d_1" "Dr. A. House" "Internal Medicine" 0 active)
    ∈ activeDoctorsOf initialDoctors.
Proof.
  refine (proj1 (unmatched_goes_to_least_loaded initialDoctors "Cardiology" "Normal"
                   (0%nat, mkDoctor "d_1" "Dr. A. House" "Internal Medicine" 0 active)
                   _ _ _)).
  - discriminate.
  - intros x Hx. apply elem_of_activeDoctorsOf in Hx as [Hx _].
    destruct x as [i d]. simpl in *. unfold initialDoctors in Hx.
    do 6 (destruct i as [|i]; [simplify_eq/=; by vm_compute |]). done.
  - vm_compute. reflexivity.
Defined.

Lemma emergencyCandidates_lessBusy (activeDoctors : list DoctorRef) :
  activeDoctors <> [] ->
  emergencyCandidates activeDoctors
  = lessBusyOf (averageLoad activeDoctors) activeDoctors.
Proof.
  intros Hne. pose proof (lessBusyOf_nonempty _ Hne) as Hlb.
  unfold emergencyCandidates. cbv zeta.
  destruct (lessBusyOf _ _) as [|x l]; [done|].
  rewrite decide_True; [done|]. simpl. lia.
Qed.

(** X17.  An emergency is never given to a doctor whose load is above the
    average of the active doctors. *)
Theorem emergency_never_above_average (ds : list Doctor) (t : string)
    (r : DoctorRef) :
  findBestDoctor ds t "Emergency" = Some r ->
  (inject_Z (currentLoad r.2) <= averageLoad (activeDoctorsOf ds))%Q /\
  ((forall m, m ∈ activeDoctorsOf ds -> isMatch t m.2 ->
      (averageLoad (activeDoctorsOf ds) < inject_Z (currentLoad m.2))%Q) ->
   ~ isMatch t r.2).
Proof.
  intros Hr.
  assert (activeDoctorsOf ds <> []) as Hne.
  { intros E. by rewrite findBestDoctor_none in Hr. }
  rewrite findBestDoctor_emergency in Hr by done.
  destruct (emergencyPick_spec t _ Hne) as (r' & Hr' & Hin & _).
  assert (r' = r) as -> by congruence.
  rewrite emergencyCandidates_lessBusy in Hin by done.
  apply elem_of_lessBusyOf in Hin as [Hle Hin].
  split; [done|]. intros Habove Hm.
  specialize (Habove r Hin Hm). lra.
Qed.

Lemma emergency_never_above_average_witness :
  (inject_Z 0
   <= averageLoad (activeDoctorsOf
        [ mkDoctor "d_3" "Dr. S. Strange" "Neurology" 3 active;
          mkDoctor "d_1" "Dr. A. House" "Internal Medicine" 0 active ]))%Q.
Proof.
  exact (proj1 (emergency_never_above_average
                  [ mkDoctor "d_3" "Dr. S. Strange" "Neurology" 3 active;
                    mkDoctor "d_1" "Dr. A. House" "Internal Medicine" 0 active ]
                  "Neurology"
                  (1%nat, mkDoctor "d_1" "Dr. A. House" "Internal Medicine" 0 active)
                  eq_refl)).
Defined.

(** ** Letter case of the required specialty *)

Lemma lower_ascii_idemp (c : ascii) : lower_ascii (lower_ascii c) = lower_ascii c.
Proof.
  destruct c as [b0 b1 b2 b3 b4 b5 b6 b7].
  destruct b0, b1, b2, b3, b4, b5, b6, b7; reflexivity.
Qed.

Lemma toLowerCase_idemp (s : string) : toLowerCase (toLowerCase s) = toLowerCase s.
Proof.
  induction s as [|c s IH]; [done|]. simpl. by rewrite lower_ascii_idemp, IH.
Qed.

Section SameLowerCase.

Variables t t' : string.
Hypothesis Hcase : toLowerCase t = toLowerCase t'.

Lemma isMatch_same_case (d : Doctor) : isMatch t d <-> isMatch t' d.
Proof. unfold isMatch. by rewrite Hcase. Qed.

Lemma mismatchCost_same_case (d : Doctor) : mismatchCost t d = mismatchCost t' d.
Proof.
  unfold mismatchCost.
  pose proof (isMatch_same_case d) as Hiff.
  destruct (decide (isMatch t d)) as [Ha|Ha], (decide (isMatch t' d)) as [Hb|Hb];
    try done; tauto.
Qed.

Lemma matchStep_same_case (b : option DoctorRef) (doc : DoctorRef) :
  matchStep t b doc = matchStep t' b doc.
Proof.
  unfold matchStep.
  pose proof (isMatch_same_case doc.2) as Hiff.
  destruct (decide (isMatch t doc.2)) as [Ha|Ha],
           (decide (isMatch t' doc.2)) as [Hb|Hb];
    try done; tauto.
Qed.

Lemma costStep_same_case (avg : Q) (st : Cost * option DoctorRef) (doc : DoctorRef) :
  costStep avg t st doc = costStep avg t' st doc.
Proof. unfold costStep, totalCost. by rewrite mismatchCost_same_case. Qed.

Lemma emergencyPick_same_case (l : list DoctorRef) :
  emergencyPick t l = emergencyPick t' l.
Proof.
  unfold emergencyPick. cbv zeta.
  assert (forall c b, fold_left (matchStep t) c b = fold_left (matchStep t') c b) as ->;
    [|done].
  induction c as [|x c IH]; intros b; simpl; [done|].
  by rewrite matchStep_same_case, IH.
Qed.

Lemma standardPick_same_case (l : list DoctorRef) :
  standardPick t l = standardPick t' l.
Proof.
  unfold standardPick. cbv zeta.
  assert (forall avg c st,
            fold_left (costStep avg t) c st = fold_left (costStep avg t') c st) as ->;
    [|done].
  induction c as [|x c IH]; intros st; simpl; [done|].
  by rewrite costStep_same_case, IH.
Qed.

End SameLowerCase.

(** X18.  Two requests whose specialties differ only in letter case are
    given the same doctor. *)
Theorem choice_ignores_letter_case (ds : list Doctor) (t t' p : string) :
  toLowerCase t = toLowerCase t' ->
  findBestDoctor ds t p = findBestDoctor ds t' p.
Proof.
  intros Hcase. unfold findBestDoctor. cbv zeta.
  case_decide; [done|]. case_decide.
  - by apply emergencyPick_same_case.
  - by apply standardPick_same_case.
Qed.

Lemma choice_ignores_letter_case_witness :
  findBestDoctor initialDoctors "NEUROLOGY" "Normal"
  = findBestDoctor initialDoctors "neurology" "Normal".
Proof.
  apply (choice_ignores_letter_case initialDoctors "NEUROLOGY" "neurology" "Normal").
  reflexivity.
Defined.

(** * Further properties of the store *)

(** ** Ids *)

Lemma fmap_insert_same {A B} (f : A -> B) (l : list A) (k : nat) (x y : A) :
  l !! k = Some x -> f y = f x -> f <$> <[k:=y]> l = f <$> l.
Proof.
  intros Hk E. rewrite list_fmap_insert, E. apply list_insert_id.
  by rewrite list_lookup_fmap, Hk.
Qed.

Lemma list_find_unique {A B} `{EqDecision B} (f : A -> B) (l : list A)
    (k : nat) (x : A) :
  NoDup (f <$> l) -> l !! k = Some x ->
  list_find (fun y => f y = f x) l = Some (k, x).
Proof.
  intros Hnd Hk. apply list_find_Some. split; [done|]. split; [done|].
  intros j y Hj Hlt E.
  assert (j = k); [|lia].
  apply (NoDup_lookup _ j k (f x) Hnd); rewrite list_lookup_fmap.
  - rewrite Hj. simpl. by rewrite E.
  - by rewrite Hk.
Qed.

(** *** Patient ids *)

Lemma step_patientIdsInOrder (c : Call) (s : Store) :
  patientIdsInOrder s -> patientIdsInOrder (step s c).
Proof.
  intros [Hp Hnp]. unfold step. destruct c; simpl.
  - unfold createPatient. split; simpl.
    + rewrite fmap_app, length_app, Hp. simpl.
      rewrite Nat.add_1_r, seqZ_S. by rewrite Hnp.
    + rewrite length_app. simpl. lia.
  - unfold beginVisit. by destruct (list_find _ _).
  - unfold finalizeTriage. destruct (findVisit _ _) as [[k v]|]; [|done].
    by destruct (findBestDoctor _ _ _) as [[i d]|].
  - unfold updateVisitStatus. by destruct (findVisit _ _) as [[k v]|].
  - unfold submitDiagnosis. by destruct (findVisit _ _) as [[k v]|].
  - done.
  - unfold updateDoctorStatus. by destruct (findDoctor _ _) as [[i d]|].
Qed.

Lemma run_patientIdsInOrder (cs : list Call) (s : Store) :
  patientIdsInOrder s -> patientIdsInOrder (run cs s).
Proof.
  revert s. induction cs as [|c cs IH]; intros s H; simpl; [done|].
  apply IH. by apply step_patientIdsInOrder.
Qed.

Lemma initialStore_patientIdsInOrder : patientIdsInOrder initialStore.
Proof. by split. Qed.

(** No call takes a patient off the file. *)
Lemma step_keeps_patients (c : Call) (s : Store) (pid : Z) :
  pid ∈ (patient_ident <$> patients s) ->
  pid ∈ (patient_ident <$> patients (step s c)).
Proof.
  intros H. unfold step. destruct c; simpl.
  - unfold createPatient. simpl. rewrite fmap_app. apply elem_of_app. by left.
  - unfold beginVisit. by destruct (list_find _ _).
  - unfold finalizeTriage. destruct (findVisit _ _) as [[k v]|]; [|done].
    by destruct (findBestDoctor _ _ _) as [[i d]|].
  - unfold updateVisitStatus. by destruct (findVisit _ _) as [[k v]|].
  - unfold submitDiagnosis. by destruct (findVisit _ _) as [[k v]|].
  - done.
  - unfold updateDoctorStatus. by destruct (findDoctor _ _) as [[i d]|].
Qed.

(** *** Visit ids *)

Lemma initialStore_visitIdsInOrder : visitIdsInOrder initialStore.
Proof. by split. Qed.

Lemma visits_update_idsInOrder (s : Store) (ds : list Doctor) (k : nat)
    (v v' : MockVisit) :
  visitIdsInOrder s -> visits s !! k = Some v ->
  visit_id v' = visit_id v ->
  visitIdsInOrder (mkStore ds (patients s) (<[k:=v']> (visits s))
                     (nextPatientId s) (nextVisitId s)).
Proof.
  intros [Hv Hnv] Hlook Hid. split; simpl; rewrite ?length_insert; try done.
  by rewrite (fmap_insert_same visit_id _ _ v).
Qed.

Lemma step_visitIdsInOrder (c : Call) (s : Store) :
  keepsVisitId c -> visitIdsInOrder s -> visitIdsInOrder (step s c).
Proof.
  intros Hc Hin. pose proof Hin as [Hv Hnv]. unfold step. destruct c; simpl in *.
  - by split.
  - unfold beginVisit.
    destruct (list_find _ _) as [[j p]|] eqn:Hf; [|done].
    split; simpl.
    + rewrite fmap_app, length_app, Hv. simpl.
      rewrite Nat.add_1_r, seqZ_S. by rewrite Hnv.
    + rewrite length_app. simpl. lia.
  - unfold finalizeTriage.
    destruct (findVisit visitId (visits s)) as [[k visit]|] eqn:Hf; [|done].
    apply findVisit_Some in Hf.
    destruct (findBestDoctor _ _ _) as [[i chosen]|];
      by eapply visits_update_idsInOrder.
  - unfold updateVisitStatus.
    destruct (findVisit visitId (visits s)) as [[k visit]|] eqn:Hf; [|done].
    apply findVisit_Some in Hf.
    eapply (visits_update_idsInOrder s (doctors s)); [done..|].
    simpl. by rewrite Hc.
  - unfold submitDiagnosis.
    destruct (findVisit visitId (visits s)) as [[k visit]|] eqn:Hf; [|done].
    apply findVisit_Some in Hf. by eapply visits_update_idsInOrder.
  - by split.
  - unfold updateDoctorStatus.
    destruct (findDoctor doctorId (doctors s)) as [[i d]|]; by split.
Qed.

Lemma run_visitIdsInOrder (cs : list Call) (s : Store) :
  Forall keepsVisitId cs -> visitIdsInOrder s -> visitIdsInOrder (run cs s).
Proof.
  intros Hcs. revert s. induction Hcs as [|c cs Hc Hcs IH]; intros s H; simpl; [done|].
  apply IH. by apply step_visitIdsInOrder.
Qed.

Lemma visitIdsInOrder_lookup (s : Store) (k : nat) (v : MockVisit) :
  visitIdsInOrder s -> visits s !! k = Some v ->
  visit_id v = (1 + Z.of_nat k)%Z /\
  findVisit (visit_id v) (visits s) = Some (k, v).
Proof.
  intros [Hv _] Hk. split.
  - assert ((visit_id <$> visits s) !! k = Some (visit_id v)) as H
      by (by rewrite list_lookup_fmap, Hk).
    rewrite Hv in H. by apply lookup_seqZ in H as [-> _].
  - apply (list_find_unique visit_id); [|done]. rewrite Hv. apply NoDup_seqZ.
Qed.

(** *** The patient of a visit *)

Lemma step_visitPatientsKnown (c : Call) (s : Store) :
  keepsPatientId c -> visitPatientsKnown s -> visitPatientsKnown (step s c).
Proof.
  intros Hc Hk. unfold visitPatientsKnown in *.
  assert (Forall (fun v => patient_id v ∈ patient_ident <$> patients (step s c))
                 (visits s)) as Hold.
  { eapply Forall_impl; [exact Hk|]. intros v. apply step_keeps_patients. }
  revert Hold. unfold step. destruct c; simpl in *; intros Hold.
  - done.
  - unfold beginVisit in *.
    destruct (list_find _ _) as [[j p]|] eqn:Hf; simpl in *; [|done].
    apply list_find_Some in Hf as (Hj & Hpid & _).
    apply Forall_app. split; [done|]. constructor; [|constructor]. simpl.
    rewrite <- Hpid. apply list_elem_of_fmap_2. by eapply list_elem_of_lookup_2.
  - unfold finalizeTriage in *.
    destruct (findVisit visitId (visits s)) as [[k visit]|] eqn:Hf; [|done].
    apply findVisit_Some in Hf.
    assert (patient_id visit ∈ patient_ident <$> patients s) as Hv.
    { rewrite Forall_forall in Hk. apply Hk. by eapply list_elem_of_lookup_2. }
    destruct (findBestDoctor _ _ _) as [[i chosen]|]; simpl in *;
      by apply Forall_insert.
  - unfold updateVisitStatus in *.
    destruct (findVisit visitId (visits s)) as [[k visit]|] eqn:Hf; [|done].
    apply findVisit_Some in Hf. simpl in *.
    apply Forall_insert; [done|]. simpl. rewrite Hc. simpl.
    rewrite Forall_forall in Hk. apply Hk. by eapply list_elem_of_lookup_2.
  - unfold submitDiagnosis in *.
    destruct (findVisit visitId (visits s)) as [[k visit]|] eqn:Hf; [|done].
    apply findVisit_Some in Hf. simpl in *.
    apply Forall_insert; [done|]. simpl.
    rewrite Forall_forall in Hk. apply Hk. by eapply list_elem_of_lookup_2.
  - done.
  - unfold updateDoctorStatus in *.
    by destruct (findDoctor doctorId (doctors s)) as [[i d]|].
Qed.

Lemma run_visitPatientsKnown (cs : list Call) (s : Store) :
  Forall keepsPatientId cs -> visitPatientsKnown s -> visitPatientsKnown (run cs s).
Proof.
  intros Hcs. revert s. induction Hcs as [|c cs Hc Hcs IH]; intros s H; simpl; [done|].
  apply IH. by apply step_visitPatientsKnown.
Qed.

(** The calls of [oneDay] carry no updates. *)
Lemma oneDay_keepsVisitId : Forall keepsVisitId oneDay.
Proof. unfold oneDay. repeat (constructor; [by simpl|]). constructor. Qed.

Lemma oneDay_keepsPatientId : Forall keepsPatientId oneDay.
Proof. unfold oneDay. repeat (constructor; [by simpl|]). constructor. Qed.

Lemma oneDay_keepsAssignment : Forall keepsAssignment oneDay.
Proof. unfold oneDay. repeat (constructor; [by simpl|]). constructor. Qed.

(** X1.  After calls whose updates carry no [id], the visit at position
    [k] carries the id [k + 1], looking that id up finds this very visit,
    and the counter holds the next id. *)
Theorem visit_ids_count_from_one (cs : list Call) (k : nat) (v : MockVisit) :
  Forall keepsVisitId cs ->
  visits (run cs initialStore) !! k = Some v ->
  visit_id v = (1 + Z.of_nat k)%Z /\
  findVisit (visit_id v) (visits (run cs initialStore)) = Some (k, v) /\
  nextVisitId (run cs initialStore)
  = (1 + Z.of_nat (length (visits (run cs initialStore))))%Z.
Proof.
  intros Hcs Hk.
  pose proof (run_visitIdsInOrder cs _ Hcs initialStore_visitIdsInOrder) as Hin.
  destruct (visitIdsInOrder_lookup _ _ _ Hin Hk) as [Hid Hfind].
  split; [done|]. split; [done|]. by destruct Hin.
Qed.

Lemma visit_ids_count_from_one_witness :
  exists v, visits (run oneDay initialStore) !! 1%nat = Some v /\ visit_id v = 2%Z.
Proof.
  eexists. split; [vm_compute; reflexivity|].
  refine (proj1 (visit_ids_count_from_one oneDay 1 _ oneDay_keepsVisitId _)).
  vm_compute. reflexivity.
Defined.

(** Without the condition the ids need not be in order: an update can
    give visit 1 the id 2, and the next journey then finalises the old
    visit in place of the new one, which stays in triage. *)
Example renumbered_visit_is_found_first :
  let s := run renumberCalls initialStore in
  visit_id <$> visits s = [2%Z] /\
  visit_status <$> visits (simulatePatientJourney "James Bond" "Headache" None
                             "Neurology" s)
  = ["waiting"; "triage"].
Proof. vm_compute. split; reflexivity. Qed.

(** X2.  Whatever calls were made since the start, the patient at
    position [k] carries the id [101 + k], looking that id up finds this
    very patient, and the counter holds the next id. *)
Theorem patient_ids_count_from_101 (cs : list Call) (k : nat) (p : MockPatient) :
  patients (run cs initialStore) !! k = Some p ->
  patient_ident p = (101 + Z.of_nat k)%Z /\
  list_find (fun q => patient_ident q = patient_ident p)
            (patients (run cs initialStore)) = Some (k, p) /\
  nextPatientId (run cs initialStore)
  = (101 + Z.of_nat (length (patients (run cs initialStore))))%Z.
Proof.
  intros Hk.
  pose proof (run_patientIdsInOrder cs _ initialStore_patientIdsInOrder) as [Hp Hnp].
  split; [|split; [|done]].
  - assert ((patient_ident <$> patients (run cs initialStore)) !! k
            = Some (patient_ident p)) as H by (by rewrite list_lookup_fmap, Hk).
    rewrite Hp in H. by apply lookup_seqZ in H as [-> _].
  - apply (list_find_unique patient_ident); [|done]. rewrite Hp. apply NoDup_seqZ.
Qed.

Lemma patient_ids_count_from_101_witness :
  exists p, patients (run oneDay initialStore) !! 1%nat = Some p /\
            patient_ident p = 102%Z.
Proof.
  eexists. split; [vm_compute; reflexivity|].
  refine (proj1 (patient_ids_count_from_101 oneDay 1 _ _)).
  vm_compute. reflexivity.
Defined.

(** X3.  After calls whose updates carry no [patient_id], every entry of
    [getTodaysVisits] is the visit at the same position together with the
    name of the patient on file whose id is the visit's patient id. *)
Theorem todays_visits_carry_patient_names (cs : list Call) (k : nat) (a : APIVisit) :
  Forall keepsPatientId cs ->
  getTodaysVisits (run cs initialStore) !! k = Some a ->
  visits (run cs initialStore) !! k = Some (api_visit a) /\
  exists p,
    p ∈ patients (run cs initialStore) /\
    patient_ident p = patient_id (api_visit a) /\
    api_patient_name a
    = (if decide (patient_name p = "") then "Unknown" else patient_name p).
Proof.
  intros Hcs Ha.
  pose proof (run_patientIdsInOrder cs _ initialStore_patientIdsInOrder) as [Hp _].
  assert (visitPatientsKnown (run cs initialStore)) as Hknown.
  { apply run_visitPatientsKnown; [done|]. constructor. }
  unfold visitPatientsKnown in Hknown.
  set (s := run cs initialStore) in *.
  unfold getTodaysVisits in Ha. rewrite list_lookup_fmap in Ha.
  destruct (visits s !! k) as [v|] eqn:Hk; simplify_eq/=.
  split; [done|].
  rewrite Forall_forall in Hknown.
  pose proof (Hknown v (list_elem_of_lookup_2 _ _ _ Hk)) as Hin.
  apply list_elem_of_fmap in Hin as (p & Hpid & Hpin).
  apply list_elem_of_lookup in Hpin as [j Hj].
  exists p. split; [by eapply list_elem_of_lookup_2|]. split; [done|].
  unfold patientNameFor. rewrite Hpid.
  rewrite (list_find_unique patient_ident _ j p); [done| |done].
  rewrite Hp. apply NoDup_seqZ.
Qed.

Lemma todays_visits_carry_patient_names_witness :
  exists a, getTodaysVisits (run oneDay initialStore) !! 1%nat = Some a /\
            visits (run oneDay initialStore) !! 1%nat = Some (api_visit a).
Proof.
  eexists. split; [vm_compute; reflexivity|].
  refine (proj1 (todays_visits_carry_patient_names oneDay 1 _ oneDay_keepsPatientId _)).
  vm_compute. reflexivity.
Defined.

(** ** Not-found errors *)

Lemma list_find_is_None {A B} `{EqDecision B} (f : A -> B) (l : list A) (b : B) :
  list_find (fun y => f y = b) l = None <-> b ∉ (f <$> l).
Proof.
  rewrite list_find_None, Forall_forall. split.
  - intros H Hin. apply list_elem_of_fmap in Hin as (x & -> & Hx). by apply (H x).
  - intros H x Hx E. apply H. rewrite <- E. by apply list_elem_of_fmap_2.
Qed.

(** X4.  [beginVisit] throws exactly when no patient has the given id,
    [finalizeTriage], [updateVisitStatus] and [submitDiagnosis] exactly
    when no visit has the given id; the other calls never throw. *)
Theorem throws_exactly_when_id_unknown (c : Call) (s : Store) :
  (exists msg, call c s = Throw msg) <->
  match c with
  | BeginVisit patientId => patientId ∉ (patient_ident <$> patients s)
  | FinalizeTriage visitId _ _ _ | UpdateVisitStatus visitId _ _
  | SubmitDiagnosis visitId _ _ => visitId ∉ (visit_id <$> visits s)
  | CreatePatient _ _ | AddDoctor _ _ _ _ | UpdateDoctorStatus _ _ => False
  end.
Proof.
  destruct c; simpl.
  - unfold createPatient. split; [by intros [msg ?] | done].
  - unfold beginVisit. rewrite <- (list_find_is_None patient_ident).
    destruct (list_find _ _) as [[j p]|]; split; try done.
    + by intros [msg ?].
    + by eexists.
  - unfold finalizeTriage, findVisit. rewrite <- (list_find_is_None visit_id).
    destruct (list_find _ _) as [[k v]|]; split; try done.
    + destruct (findBestDoctor _ _ _) as [[i d]|]; by intros [msg ?].
    + by eexists.
  - unfold updateVisitStatus, findVisit. rewrite <- (list_find_is_None visit_id).
    destruct (list_find _ _) as [[k v]|]; split; try done.
    + by intros [msg ?].
    + by eexists.
  - unfold submitDiagnosis, findVisit. rewrite <- (list_find_is_None visit_id).
    destruct (list_find _ _) as [[k v]|]; split; try done.
    + by intros [msg ?].
    + by eexists.
  - unfold addDoctor. split; [by intros [msg ?] | done].
  - unfold updateDoctorStatus.
    destruct (findDoctor _ _) as [[i d]|]; (split; [by intros [msg ?] | done]).
Qed.

(** ** The roster and the visit list only grow *)

Lemma identity_alter_load (f : Z -> Z) (i : nat) (ds : list Doctor) :
  doctorIdentity <$> alter (setLoad f) i ds = doctorIdentity <$> ds.
Proof.
  rewrite (list_fmap_alter doctorIdentity (setLoad f) (fun x => x)).
  - by apply list_alter_id.
  - by apply Forall_forall.
Qed.

Lemma identity_alter_status (st : DoctorStatus) (i : nat) (ds : list Doctor) :
  doctorIdentity <$> alter (setDoctorStatus st) i ds = doctorIdentity <$> ds.
Proof.
  rewrite (list_fmap_alter doctorIdentity (setDoctorStatus st) (fun x => x)).
  - by apply list_alter_id.
  - by apply Forall_forall.
Qed.

Lemma identity_decrementLoad (assigned : option string) (ds : list Doctor) :
  doctorIdentity <$> decrementLoad assigned ds = doctorIdentity <$> ds.
Proof.
  unfold decrementLoad. destruct assigned as [did|]; [|done].
  case_decide; [done|]. destruct (findDoctor did ds) as [[i d]|]; [|done].
  apply identity_alter_load.
Qed.

Lemma step_roster_grows (c : Call) (s : Store) :
  doctorIdentity <$> doctors s `prefix_of` doctorIdentity <$> doctors (step s c).
Proof.
  unfold step. destruct c; simpl.
  - done.
  - unfold beginVisit. by destruct (list_find _ _).
  - unfold finalizeTriage.
    destruct (findVisit _ _) as [[k v]|]; [|done].
    destruct (findBestDoctor _ _ _) as [[i d]|]; simpl; [|done].
    by rewrite identity_alter_load.
  - unfold updateVisitStatus. by destruct (findVisit _ _) as [[k v]|].
  - unfold submitDiagnosis. destruct (findVisit _ _) as [[k v]|]; simpl; [|done].
    by rewrite identity_decrementLoad.
  - rewrite fmap_app. by apply prefix_app_r.
  - unfold updateDoctorStatus. destruct (findDoctor _ _) as [[i d]|]; simpl; [|done].
    by rewrite identity_alter_status.
Qed.

(** X5.  No sequence of calls removes a doctor or changes the id, the
    name or the specialty of one. *)
Theorem roster_only_grows (cs : list Call) (s : Store) :
  doctorIdentity <$> doctors s `prefix_of` doctorIdentity <$> doctors (run cs s).
Proof.
  revert s. induction cs as [|c cs IH]; intros s; simpl; [done|].
  etrans; [apply (step_roster_grows c)|apply IH].
Qed.

Lemma step_visits_length (c : Call) (s : Store) :
  (length (visits s) <= length (visits (step s c)))%nat.
Proof.
  unfold step. destruct c; simpl.
  - done.
  - unfold beginVisit. destruct (list_find _ _); simpl; [|done].
    rewrite length_app. lia.
  - unfold finalizeTriage. destruct (findVisit _ _) as [[k v]|]; [|done].
    destruct (findBestDoctor _ _ _) as [[i d]|]; simpl; by rewrite length_insert.
  - unfold updateVisitStatus. destruct (findVisit _ _) as [[k v]|]; simpl; [|done].
    by rewrite length_insert.
  - unfold submitDiagnosis. destruct (findVisit _ _) as [[k v]|]; simpl; [|done].
    by rewrite length_insert.
  - done.
  - unfold updateDoctorStatus. by destruct (findDoctor _ _) as [[i d]|].
Qed.

Lemma step_visits_grow (c : Call) (s : Store) :
  keepsVisitId c -> keepsPatientId c ->
  visitIdentity <$> visits s `prefix_of` visitIdentity <$> visits (step s c).
Proof.
  intros Hid Hpid. unfold step. destruct c; simpl in *.
  - done.
  - unfold beginVisit. destruct (list_find _ _); simpl; [|done].
    rewrite fmap_app. by apply prefix_app_r.
  - unfold finalizeTriage.
    destruct (findVisit _ _) as [[k v]|] eqn:Hf; [|done].
    apply findVisit_Some in Hf.
    destruct (findBestDoctor _ _ _) as [[i d]|]; simpl;
      by rewrite (fmap_insert_same visitIdentity _ _ v).
  - unfold updateVisitStatus. destruct (findVisit _ _) as [[k v]|] eqn:Hf; [|done].
    apply findVisit_Some in Hf. simpl.
    rewrite (fmap_insert_same visitIdentity _ _ v); [done..|].
    unfold visitIdentity. simpl. by rewrite Hid, Hpid.
  - unfold submitDiagnosis. destruct (findVisit _ _) as [[k v]|] eqn:Hf; [|done].
    apply findVisit_Some in Hf. simpl.
    by rewrite (fmap_insert_same visitIdentity _ _ v).
  - done.
  - unfold updateDoctorStatus. by destruct (findDoctor _ _) as [[i d]|].
Qed.

(** X6.  No sequence of calls removes a visit: the visit list never gets
    shorter.  When no update carries an [id] or a [patient_id], every
    visit keeps its id and its patient. *)
Theorem visits_only_grow (cs : list Call) (s : Store) :
  (length (visits s) <= length (visits (run cs s)))%nat /\
  (Forall keepsVisitId cs -> Forall keepsPatientId cs ->
   visitIdentity <$> visits s `prefix_of` visitIdentity <$> visits (run cs s)).
Proof.
  split.
  - revert s. induction cs as [|c cs IH]; intros s; simpl; [done|].
    etrans; [apply (step_visits_length c)|apply IH].
  - intros Hid. revert s.
    induction Hid as [|c cs Hc Hcs IH]; intros s Hpid; simpl; [done|].
    apply Forall_cons in Hpid as [Hp Hpid].
    etrans; [by apply (step_visits_grow c)|by apply IH].
Qed.

Lemma visits_only_grow_witness :
  visitIdentity <$> visits initialStore
  `prefix_of` visitIdentity <$> visits (run oneDay initialStore).
Proof.
  exact (proj2 (visits_only_grow oneDay initialStore)
           oneDay_keepsVisitId oneDay_keepsPatientId).
Defined.

(** ** Assigned doctors stay on the roster *)

Lemma step_keeps_ids (c : Call) (s : Store) (did : string) :
  did ∈ (doctor_id <$> doctors s) -> did ∈ (doctor_id <$> doctors (step s c)).
Proof.
  intros Hin. destruct (step_roster_grows c s) as [more E].
  assert (forall ds : list Doctor,
            doctor_id <$> ds
            = (fun x : string * string * string => x.1.1) <$> (doctorIdentity <$> ds))
    as Hc.
  { intros ds. rewrite <- list_fmap_compose. done. }
  rewrite Hc, E, fmap_app. apply elem_of_app. left. by rewrite <- Hc.
Qed.

Lemma step_assignedKnown (c : Call) (s : Store) :
  keepsAssignment c -> assignedKnown s -> assignedKnown (step s c).
Proof.
  intros Hc Hknown v did Hv Ha.
  assert (forall v0, v0 ∈ visits s -> assigned_doctor_id v0 = Some did ->
                     did ∈ doctor_id <$> doctors (step s c)) as Hold.
  { intros v0 Hv0 Ha0. apply step_keeps_ids. by eapply Hknown. }
  revert Hv. unfold step in *. destruct c; simpl in *.
  - by eauto.
  - unfold beginVisit in *. destruct (list_find _ _); simpl in *; [|by eauto].
    intros Hv. apply elem_of_app in Hv as [Hv|Hv]; [by eauto|].
    apply list_elem_of_singleton in Hv. by subst.
  - unfold finalizeTriage in *.
    destruct (findVisit _ _) as [[k visit]|] eqn:Hf; [|by eauto].
    apply findVisit_Some in Hf.
    pose proof (findBestDoctor_elem_of (doctors s)
                  (routedSpecialty preCalculatedSpecialty aiSpecialty)
                  (summary_priority summary)) as Hbest.
    destruct (findBestDoctor _ _ _) as [[i chosen]|]; simpl in *.
    + intros Hv. written_or_old Hv; [|by eauto].
      simpl in Ha. simplify_eq. rewrite ids_alter_load.
      apply elem_of_activeDoctorsOf in Hbest as [Hi _]. by eapply id_on_roster.
    + intros Hv. written_or_old Hv; [|by eauto].
      simpl in Ha. eapply Hold; [|exact Ha]. by eapply list_elem_of_lookup_2.
  - unfold updateVisitStatus in *.
    destruct (findVisit _ _) as [[k visit]|] eqn:Hf; [|by eauto].
    apply findVisit_Some in Hf. simpl in *.
    intros Hv. written_or_old Hv; [|by eauto].
    simpl in Ha. rewrite Hc in Ha. simpl in Ha.
    eapply Hold; [|exact Ha]. by eapply list_elem_of_lookup_2.
  - unfold submitDiagnosis in *.
    destruct (findVisit _ _) as [[k visit]|] eqn:Hf; [|by eauto].
    apply findVisit_Some in Hf. simpl in *.
    intros Hv. written_or_old Hv; [|by eauto].
    simpl in Ha. eapply Hold; [|exact Ha]. by eapply list_elem_of_lookup_2.
  - by eauto.
  - unfold updateDoctorStatus in *.
    destruct (findDoctor _ _) as [[i d]|]; simpl in *; by eauto.
Qed.

Lemma run_assignedKnown (cs : list Call) (s : Store) :
  Forall keepsAssignment cs -> assignedKnown s -> assignedKnown (run cs s).
Proof.
  intros Hcs. revert s. induction Hcs as [|c cs Hc Hcs IH]; intros s H; simpl; [done|].
  apply IH. by apply step_assignedKnown.
Qed.

(** X7.  After calls whose updates carry no [assigned_doctor_id], the
    doctor id stored on a visit is the id of a doctor on the roster, so
    the lookup of [submitDiagnosis] finds that doctor. *)
Theorem assigned_doctor_is_on_roster (cs : list Call) (v : MockVisit) (did : string) :
  Forall keepsAssignment cs ->
  v ∈ visits (run cs initialStore) ->
  assigned_doctor_id v = Some did ->
  exists i d,
    findDoctor did (doctors (run cs initialStore)) = Some (i, d) /\
    doctor_id d = did.
Proof.
  intros Hcs Hv Ha.
  assert (assignedKnown initialStore) as H0.
  { intros v0 did0 Hv0. by apply not_elem_of_nil in Hv0. }
  pose proof (run_assignedKnown cs _ Hcs H0 v did Hv Ha) as Hin.
  destruct (findDoctor_known _ _ Hin) as (i & d & Hfd).
  exists i, d. split; [done|]. by apply findDoctor_Some in Hfd as [_ ?].
Qed.

Lemma assigned_doctor_is_on_roster_witness :
  exists i d, findDoctor "d_1" (doctors (run oneDay initialStore)) = Some (i, d).
Proof.
  destruct (assigned_doctor_is_on_roster oneDay
              (mkVisit 2 102 "waiting" "Severe migraine headache" "Emergency"
                 (Some "d_1") (Some "Cardiology") None) "d_1")
    as (i & d & H & _).
  - exact oneDay_keepsAssignment.
  - vm_compute. right. left.
  - reflexivity.
  - by exists i, d.
Defined.

(** Without the condition an update can store the id of no doctor. *)
Example status_update_can_name_no_doctor :
  let s := step crowdedClinic (UpdateVisitStatus 1 "waiting" (repointTo "zzz")) in
  assigned_doctor_id <$> visits s = [Some "zzz"; Some "d_1"] /\
  findDoctor "zzz" (doctors s) = None.
Proof. vm_compute. split; reflexivity. Qed.

(** ** How far a call moves the loads *)

Lemma totalLoad_alter_status (st : DoctorStatus) (ds : list Doctor) (i : nat) :
  totalLoad (alter (setDoctorStatus st) i ds) = totalLoad ds.
Proof.
  revert i. induction ds as [|x ds IH]; intros i; [done|].
  destruct i as [|i].
  - change (alter (setDoctorStatus st) 0%nat (x :: ds))
      with (setDoctorStatus st x :: ds).
    by rewrite !totalLoad_cons.
  - change (alter (setDoctorStatus st) (S i) (x :: ds))
      with (x :: alter (setDoctorStatus st) i ds).
    by rewrite !totalLoad_cons, IH.
Qed.

Lemma totalLoad_app (l1 l2 : list Doctor) :
  totalLoad (l1 ++ l2) = (totalLoad l1 + totalLoad l2)%Z.
Proof.
  induction l1 as [|x l1 IH]; [done|].
  change ((x :: l1) ++ l2) with (x :: (l1 ++ l2)).
  rewrite !totalLoad_cons, IH. lia.
Qed.

(** X8.  On loads that are not negative one call moves the sum of the
    loads by at most one. *)
Theorem call_moves_total_load_by_one (c : Call) (s : Store) :
  nonnegLoads (doctors s) ->
  let delta := (totalLoad (doctors (step s c)) - totalLoad (doctors s))%Z in
  match c with
  | FinalizeTriage _ _ _ _ => delta = 0%Z \/ delta = 1%Z
  | SubmitDiagnosis _ _ _ => delta = 0%Z \/ delta = (-1)%Z
  | _ => delta = 0%Z
  end.
Proof.
  intros Hpos. cbv zeta. unfold step. destruct c; simpl.
  - lia.
  - unfold beginVisit. destruct (list_find _ _); simpl; lia.
  - unfold finalizeTriage. destruct (findVisit _ _) as [[k visit]|]; [|lia].
    pose proof (findBestDoctor_elem_of (doctors s)
                  (routedSpecialty preCalculatedSpecialty aiSpecialty)
                  (summary_priority summary)) as Hbest.
    destruct (findBestDoctor _ _ _) as [[i chosen]|]; simpl; [|lia].
    apply elem_of_activeDoctorsOf in Hbest as [Hi _]. simpl in Hi.
    rewrite (totalLoad_alter _ _ _ _ Hi). lia.
  - unfold updateVisitStatus. destruct (findVisit _ _) as [[k visit]|]; simpl; lia.
  - unfold submitDiagnosis. destruct (findVisit _ _) as [[k visit]|]; simpl; [|lia].
    unfold decrementLoad. destruct (assigned_doctor_id visit) as [did|]; [|lia].
    case_decide; [lia|].
    destruct (findDoctor did (doctors s)) as [[i d]|] eqn:Hfd; [|lia].
    apply findDoctor_Some in Hfd as [Hi _].
    rewrite (totalLoad_alter _ _ _ _ Hi).
    unfold nonnegLoads in Hpos. rewrite Forall_lookup in Hpos.
    specialize (Hpos i d Hi). simpl in Hpos. lia.
  - unfold addDoctor. simpl. rewrite totalLoad_app. unfold totalLoad at 2. simpl. lia.
  - unfold updateDoctorStatus. destruct (findDoctor _ _) as [[i d]|]; simpl; [|lia].
    rewrite totalLoad_alter_status. lia.
Qed.

Lemma call_moves_total_load_by_one_witness :
  (totalLoad (doctors (step crowdedClinic
                         (SubmitDiagnosis 1 "Dr. A. House" "Discharged.")))
   - totalLoad (doctors crowdedClinic) = 0 \/
   totalLoad (doctors (step crowdedClinic
                         (SubmitDiagnosis 1 "Dr. A. House" "Discharged.")))
   - totalLoad (doctors crowdedClinic) = -1)%Z.
Proof.
  apply (call_moves_total_load_by_one
           (SubmitDiagnosis 1 "Dr. A. House" "Discharged.") crowdedClinic).
  unfold nonnegLoads. vm_compute. repeat constructor; discriminate.
Defined.

(** ** Going off and on duty *)

(** X9.  Once [updateDoctorStatus] has taken a doctor off duty the
    assignment engine no longer returns that doctor. *)
Theorem off_duty_doctor_is_never_chosen (s : Store) (did : string)
    (st : DoctorStatus) (t p : string) (r : DoctorRef) :
  NoDup (doctor_id <$> doctors s) ->
  st <> active ->
  findBestDoctor (doctors (step s (UpdateDoctorStatus did st))) t p = Some r ->
  doctor_id r.2 <> did.
Proof.
  intros Hnd Hst Hr Hid. destruct r as [j rd]. simpl in Hid.
  pose proof (findBestDoctor_elem_of
                (doctors (step s (UpdateDoctorStatus did st))) t p) as Hin.
  rewrite Hr in Hin. apply elem_of_activeDoctorsOf in Hin as [Hlook Hact].
  simpl in Hlook, Hact.
  unfold step in Hlook. simpl in Hlook. unfold updateDoctorStatus in Hlook.
  destruct (findDoctor did (doctors s)) as [[i d]|] eqn:Hfd; simpl in Hlook.
  - apply findDoctor_Some in Hfd as [Hi Hd].
    rewrite list_lookup_alter in Hlook. case_decide as Hij.
    + rewrite Hi in Hlook. simpl in Hlook. by simplify_eq.
    + apply Hij. eapply same_id_same_position; [exact Hnd|exact Hi|exact Hlook|].
      congruence.
  - apply (list_find_is_None doctor_id) in Hfd. apply Hfd.
    rewrite <- Hid. by eapply id_on_roster.
Qed.

Lemma off_duty_doctor_is_never_chosen_witness :
  doctor_id (3%nat, mkDoctor "d_4" "Dr. J. Dorian" "Internal Medicine" 0 active).2
  <> "d_1".
Proof.
  apply (off_duty_doctor_is_never_chosen initialStore "d_1" on_break
           "Internal Medicine" "Normal").
  - by compute_done.
  - discriminate.
  - vm_compute. reflexivity.
Defined.

Lemma active_doctor_gives_choice (ds : list Doctor) (i : nat) (d : Doctor)
    (t p : string) :
  ds !! i = Some d -> doctor_status d = active ->
  is_Some (findBestDoctor ds t p).
Proof.
  intros Hi Hact.
  pose proof (findBestDoctor_elem_of ds t p) as H.
  destruct (findBestDoctor ds t p) as [r|]; [by eexists|].
  assert ((i, d) ∈ activeDoctorsOf ds) as Hin by (by apply elem_of_activeDoctorsOf).
  rewrite H in Hin. by apply not_elem_of_nil in Hin.
Qed.

(** X10.  After a doctor is put on duty every request is given a
    doctor. *)
Theorem doctor_on_duty_reopens_assignment (s : Store) (c : Call) (t p : string) :
  match c with
  | UpdateDoctorStatus did st => st = active /\ did ∈ (doctor_id <$> doctors s)
  | AddDoctor _ _ st _ => st = active
  | _ => False
  end ->
  is_Some (findBestDoctor (doctors (step s c)) t p).
Proof.
  intros Hc. unfold step. destruct c; simpl in *; try done.
  - subst st. unfold addDoctor. simpl.
    eapply (active_doctor_gives_choice _ (length (doctors s)));
      [by apply list_lookup_middle | done].
  - destruct Hc as [-> Hin]. unfold updateDoctorStatus.
    destruct (findDoctor_known _ _ Hin) as (i & d & Hfd). rewrite Hfd. simpl.
    apply findDoctor_Some in Hfd as [Hi _].
    eapply (active_doctor_gives_choice _ i (setDoctorStatus active d));
      [by rewrite list_lookup_alter_eq, Hi | done].
Qed.

Lemma doctor_on_duty_reopens_assignment_witness :
  is_Some (findBestDoctor
             (doctors (step closedClinic (UpdateDoctorStatus "d_3" active)))
             "Cardiology" "Emergency").
Proof.
  apply (doctor_on_duty_reopens_assignment closedClinic
           (UpdateDoctorStatus "d_3" active)).
  split; [reflexivity|]. by compute_done.
Defined.

(** ** The simulated patient journey *)

Lemma beginVisit_after_createPatient (name : string) (ph : option string) (s : Store) :
  beginVisit (nextPatientId s)
    (mkStore (doctors s) (patients s ++ [mkPatient (nextPatientId s) name ph])
       (visits s) (nextPatientId s + 1) (nextVisitId s))
  = Ok (mkStore (doctors s) (patients s ++ [mkPatient (nextPatientId s) name ph])
          (visits s ++ [mkVisit (nextVisitId s) (nextPatientId s) "triage"
                          "In Triage..." "Normal" None None None])
          (nextPatientId s + 1) (nextVisitId s + 1)).
Proof.
  unfold beginVisit. simpl.
  destruct (list_find _ _) as [[j p]|] eqn:Hf; [done|].
  apply (list_find_is_None patient_ident) in Hf. exfalso. apply Hf.
  rewrite fmap_app. apply elem_of_app. right. left.
Qed.

Lemma findVisit_newest (s : Store) (nv : MockVisit) :
  visitIdsInOrder s -> visit_id nv = nextVisitId s ->
  findVisit (nextVisitId s) (visits s ++ [nv]) = Some (length (visits s), nv).
Proof.
  intros Hin Hid. apply list_find_Some.
  split; [by apply list_lookup_middle|]. split; [done|].
  intros j y Hj Hlt. rewrite lookup_app_l in Hj by done.
  destruct (visitIdsInOrder_lookup _ _ _ Hin Hj) as [-> _].
  destruct Hin as [_ ->]. lia.
Qed.

Lemma insert_newest {A} (l : list A) (x y : A) :
  <[length l:=y]> (l ++ [x]) = l ++ [y].
Proof.
  rewrite insert_app_r_alt by lia. by rewrite Nat.sub_diag.
Qed.

Lemma journey_effect (name complaint : string) (known : option string)
    (ai : string) (s : Store) :
  visitIdsInOrder s ->
  let routed := routedSpecialty known ai in
  let triaged :=
    mkVisit (nextVisitId s) (nextPatientId s) "waiting" complaint
      (journeyPriority complaint) None (Some routed) None in
  simulatePatientJourney name complaint known ai s
  = match findBestDoctor (doctors s) routed (journeyPriority complaint) with
    | Some (i, chosen) =>
        mkStore (alter (setLoad (fun n => n + 1)%Z) i (doctors s))
          (patients s ++ [mkPatient (nextPatientId s) name None])
          (visits s ++ [setAssigned (doctor_id chosen) triaged])
          (nextPatientId s + 1) (nextVisitId s + 1)
    | None =>
        mkStore (doctors s)
          (patients s ++ [mkPatient (nextPatientId s) name None])
          (visits s ++ [triaged])
          (nextPatientId s + 1) (nextVisitId s + 1)
    end.
Proof.
  intros Hin. cbv zeta. unfold simulatePatientJourney, createPatient.
  rewrite beginVisit_after_createPatient. cbn [nextVisitId].
  unfold finalizeTriage. cbn [visits doctors patients nextPatientId nextVisitId].
  rewrite (findVisit_newest s
             (mkVisit (nextVisitId s) (nextPatientId s) "triage" "In Triage..."
                "Normal" None None None) Hin eq_refl).
  cbn [summary_priority journeySummary].
  destruct (findBestDoctor _ _ _) as [[i chosen]|]; by rewrite insert_newest.
Qed.



Lemma journey_as_run (name complaint : string) (known : option string)
    (ai : string) (s : Store) :
  simulatePatientJourney name complaint known ai s
  = run [ CreatePatient name None; BeginVisit (nextPatientId s);
          FinalizeTriage (nextVisitId s) (journeySummary complaint) known ai ] s.
Proof.
  unfold simulatePatientJourney, run. cbn [fold_left].
  unfold step at 3. cbn [call]. unfold createPatient.
  unfold step at 2. cbn [call]. rewrite beginVisit_after_createPatient.
  unfold step. cbn [call nextVisitId]. done.
Qed.

Lemma journey_admissible (name complaint : string) (known : option string)
    (ai : string) (s : Store) :
  visitIdsInOrder s ->
  admissible [ CreatePatient name None; BeginVisit (nextPatientId s);
               FinalizeTriage (nextVisitId s) (journeySummary complaint) known ai ] s.
Proof.
  intros Hin. cbn [admissible admissibleCall]. split; [done|]. split; [done|].
  split; [|done].
  unfold step at 2. cbn [call]. unfold createPatient.
  unfold step. cbn [call]. rewrite beginVisit_after_createPatient.
  cbn [visits].
  by rewrite (findVisit_newest s
                (mkVisit (nextVisitId s) (nextPatientId s) "triage" "In Triage..."
                   "Normal" None None None) Hin eq_refl).
Qed.

Lemma journey_keepsVisitId (name complaint : string) (known : option string)
    (ai : string) (s : Store) :
  Forall keepsVisitId
    [ CreatePatient name None; BeginVisit (nextPatientId s);
      FinalizeTriage (nextVisitId s) (journeySummary complaint) known ai ].
Proof. repeat (constructor; [by simpl|]). constructor. Qed.

Lemma arrive_keeps_invariants (s : Store) (a : Arrival) :
  visitIdsInOrder s -> ledgerInv s ->
  visitIdsInOrder (arrive s a) /\ ledgerInv (arrive s a).
Proof.
  intros Hin Hinv. unfold arrive. rewrite journey_as_run. split.
  - apply run_visitIdsInOrder; [apply journey_keepsVisitId | done].
  - apply run_inv; [done|]. by apply journey_admissible.
Qed.

Lemma arrivals_keep_invariants (js : list Arrival) (s : Store) :
  visitIdsInOrder s -> ledgerInv s ->
  visitIdsInOrder (arrivals js s) /\ ledgerInv (arrivals js s).
Proof.
  revert s. induction js as [|a js IH]; intros s Hin Hinv; simpl; [done|].
  destruct (arrive_keeps_invariants s a Hin Hinv). by apply IH.
Qed.

(** X13.  After calls that keep the ledger balanced and whose updates
    carry no [id], any number of simulated arrivals leaves the sum of the
    loads equal to the number of open assigned visits, and every load
    equal to the number of open visits assigned to that doctor. *)
Theorem arrivals_keep_conservation (cs : list Call) (js : list Arrival) :
  admissible cs initialStore ->
  Forall keepsVisitId cs ->
  let s := arrivals js (run cs initialStore) in
  totalLoad (doctors s) = openCount (visits s) /\
  forall j d, doctors s !! j = Some d ->
              currentLoad d = caseload (doctor_id d) (visits s).
Proof.
  intros Hadm Hcs. cbv zeta.
  destruct (arrivals_keep_invariants js (run cs initialStore)) as [_ Hinv].
  - by apply run_visitIdsInOrder, initialStore_visitIdsInOrder.
  - by apply run_inv; [apply initialStore_inv|].
  - split; [by apply ledgerInv_conservation | by destruct Hinv].
Qed.

(** Without the second condition the ledger can break although every
    call before the arrival keeps it balanced: the visit renumbered to 2
    is assigned, and the journey assigns it once more. *)
Example renumbered_visit_is_assigned_twice :
  let cs := [ CreatePatient "Sarah Connor" None; BeginVisit 101;
              FinalizeTriage 1 (sampleSummary "Normal") (Some "Neurology") "Neurology";
              UpdateVisitStatus 1 "waiting"
                (mkUpdates (Some 2%Z) None None None None None None None) ] in
  let s := arrivals [("James Bond", "Headache", None, "Neurology")]
             (run cs initialStore) in
  totalLoad (doctors (run cs initialStore)) = openCount (visits (run cs initialStore)) /\
  totalLoad (doctors s) = 2%Z /\ openCount (visits s) = 1%Z.
Proof. vm_compute. repeat split; reflexivity. Qed.

Lemma arrivals_keep_conservation_witness :
  totalLoad (doctors (arrivals
     [ ("Ethan Hunt", "I have a deep cut on my forearm from a piece of glass.",
        Some "General Surgery", "Internal Medicine");
       ("Ellen Ripley", "I have a high fever and trouble breathing.",
        None, "Internal Medicine") ]
     (run oneDay initialStore)))
  = openCount (visits (arrivals
     [ ("Ethan Hunt", "I have a deep cut on my forearm from a piece of glass.",
        Some "General Surgery", "Internal Medicine");
       ("Ellen Ripley", "I have a high fever and trouble breathing.",
        None, "Internal Medicine") ]
     (run oneDay initialStore))).
Proof.
  refine (proj1 (arrivals_keep_conservation oneDay _ _ oneDay_keepsVisitId)).
  vm_compute.
  repeat match goal with
         | |- _ /\ _ => split
         | |- _ <-> _ => split
         | |- _ -> _ => intros ?
         end; try reflexivity; try discriminate; try exact I.
  right. discriminate.
Defined.

Lemma alter_load_keeps_active (f : Z -> Z) (i : nat) (ds : list Doctor) :
  activeDoctorsOf ds <> [] -> activeDoctorsOf (alter (setLoad f) i ds) <> [].
Proof.
  intros Hne.
  destruct (activeDoctorsOf ds) as [|r l] eqn:E; [done|]. clear Hne.
  assert (r ∈ activeDoctorsOf ds) as Hr by (rewrite E; left).
  apply elem_of_activeDoctorsOf in Hr as [Hlook Hact].
  assert (exists d, alter (setLoad f) i ds !! r.1 = Some d /\ doctor_status d = active)
    as (d & Hd & Hdact).
  { rewrite list_lookup_alter. case_decide as Hi.
    - subst i. rewrite Hlook. by exists (setLoad f r.2).
    - by exists r.2. }
  intros Hnil.
  assert ((r.1, d) ∈ activeDoctorsOf (alter (setLoad f) i ds)) as Hin
    by (by apply elem_of_activeDoctorsOf).
  rewrite Hnil in Hin. by apply not_elem_of_nil in Hin.
Qed.

(** What holds while patients only arrive: everybody waits with a doctor. *)
Lemma arrivals_from_waiting_room (js : list Arrival) (s : Store) :
  visitIdsInOrder s -> activeDoctorsOf (doctors s) <> [] ->
  Forall (fun v => visit_status v = "waiting" /\ is_Some (assigned_doctor_id v))
         (visits s) ->
  let s' := arrivals js s in
  length (visits s') = (length (visits s) + length js)%nat /\
  Forall (fun v => visit_status v = "waiting" /\ is_Some (assigned_doctor_id v))
         (visits s') /\
  totalLoad (doctors s') = (totalLoad (doctors s) + Z.of_nat (length js))%Z.
Proof.
  cbv zeta. revert s. induction js as [|a js IH]; intros s Hin Hact Hall.
  - simpl. split; [lia|]. split; [done|]. lia.
  - simpl.
    assert (visitIdsInOrder (arrive s a)) as Hin'.
    { unfold arrive. rewrite journey_as_run.
      apply run_visitIdsInOrder; [apply journey_keepsVisitId | done]. }
    destruct a as [[[name complaint] known] ai].
    unfold arrive in *. cbn [fst snd] in *.
    pose proof (journey_effect name complaint known ai s Hin) as Heff. cbv zeta in Heff.
    pose proof (findBestDoctor_elem_of (doctors s) (routedSpecialty known ai)
                  (journeyPriority complaint)) as Hbest.
    destruct (findBestDoctor _ _ _) as [[i chosen]|]; [|done].
    apply elem_of_activeDoctorsOf in Hbest as [Hi _]. simpl in Hi.
    destruct (IH (simulatePatientJourney name complaint known ai s)) as (Hl & Hf & Ht).
    + done.
    + rewrite Heff. simpl. by apply alter_load_keeps_active.
    + rewrite Heff. simpl. apply Forall_app. split; [done|].
      constructor; [|constructor]. simpl. split; [done|by eexists].
    + split; [|split; [done|]].
      * rewrite Hl, Heff. simpl. rewrite length_app. simpl. lia.
      * rewrite Ht, Heff. simpl. rewrite (totalLoad_alter _ _ _ _ Hi). lia.
Qed.

(** X14.  From the empty clinic, after any list of simulated arrivals
    every visit waits with a doctor. *)
Theorem every_arrival_is_assigned (js : list Arrival) :
  let s := arrivals js initialStore in
  length (visits s) = length js /\
  Forall (fun v => visit_status v = "waiting" /\ is_Some (assigned_doctor_id v))
         (visits s) /\
  totalLoad (doctors s) = Z.of_nat (length js).
Proof.
  cbv zeta.
  destruct (arrivals_from_waiting_room js initialStore) as (Hl & Hf & Ht).
  - apply initialStore_visitIdsInOrder.
  - by vm_compute.
  - constructor.
  - split; [|split]; [by rewrite Hl | done | by rewrite Ht].
Qed.

(** * The queue of the doctor dashboard *)

Lemma insertBy_perm {A} (cmp : A -> A -> Z) (x : A) (l : list A) :
  insertBy cmp x l ≡ₚ x :: l.
Proof.
  induction l as [|y l IH]; simpl; [done|].
  case_decide; [done|]. rewrite IH. apply Permutation_swap.
Qed.

Lemma sortBy_perm {A} (cmp : A -> A -> Z) (l : list A) : sortBy cmp l ≡ₚ l.
Proof.
  induction l as [|x l IH]; simpl; [done|].
  by rewrite insertBy_perm, IH.
Qed.

Lemma StronglySorted_weaken {A} (R R' : A -> A -> Prop) (l : list A) :
  (forall a b, R a b -> R' a b) -> StronglySorted R l -> StronglySorted R' l.
Proof.
  intros Himp. induction 1 as [|x l Hs IH Hall]; constructor; [done|].
  eapply Forall_impl; [exact Hall|]. intros y. apply Himp.
Qed.

Lemma StronglySorted_lookup_lt {A} (R : A -> A -> Prop) (l : list A)
    (i j : nat) (a b : A) :
  StronglySorted R l -> l !! i = Some a -> l !! j = Some b -> (i < j)%nat -> R a b.
Proof.
  intros Hs. revert i j. induction Hs as [|x l Hs IH Hall]; intros i j Hi Hj Hij.
  - done.
  - destruct j as [|j]; [lia|]. simpl in Hj. destruct i as [|i]; simpl in Hi.
    + simplify_eq. rewrite Forall_forall in Hall. apply Hall.
      by eapply list_elem_of_lookup_2.
    + apply (IH i j); [done..|lia].
Qed.

Lemma plainPriority_rank (a : Session) :
  plainPriority a -> priorityRank a = Number (rankNumber a).
Proof.
  unfold plainPriority, rankNumber, priorityRank, priorityOrder. intros Hplain.
  repeat case_decide; done.
Qed.

(** On plain priorities the comparator is a number, and it is the order
    by rank and start time. *)
Lemma queueCompare_before (a b : Session) :
  plainPriority a -> plainPriority b ->
  (sortOrder (queueCompare a b) <= 0)%Z <-> queueBefore a b.
Proof.
  intros Ha Hb. unfold queueCompare, queueBefore. cbv zeta.
  rewrite (plainPriority_rank a Ha), (plainPriority_rank b Hb).
  case_decide as Hne; simpl.
  - assert (rankNumber a <> rankNumber b) by congruence. lia.
  - assert (rankNumber a = rankNumber b) as E by congruence. lia.
Qed.

Lemma insertBy_sorted_on {A} (cmp : A -> A -> Z) (R : A -> A -> Prop)
    (P : A -> Prop) (x : A) (l : list A) :
  (forall a b, P a -> P b -> (cmp a b <= 0)%Z <-> R a b) ->
  (forall a b c, R a b -> R b c -> R a c) ->
  (forall a b, R a b \/ R b a) ->
  P x -> Forall P l ->
  StronglySorted R l -> StronglySorted R (insertBy cmp x l).
Proof.
  intros Hcmp Htrans Htotal Hx HP Hs.
  induction Hs as [|y l Hs IH Hall]; simpl.
  - repeat constructor.
  - apply Forall_cons in HP as [Hy HP]. case_decide as Hxy.
    + apply Hcmp in Hxy; [|done..].
      constructor; [by constructor|]. constructor; [done|].
      eapply Forall_impl; [exact Hall|]. intros z Hyz. by eapply Htrans.
    + constructor; [by apply IH|]. rewrite insertBy_perm. constructor; [|done].
      destruct (Htotal x y) as [Hr|Hr]; [|done].
      exfalso. apply Hxy. by apply Hcmp.
Qed.

Lemma sortBy_sorted_on {A} (cmp : A -> A -> Z) (R : A -> A -> Prop)
    (P : A -> Prop) (l : list A) :
  (forall a b, P a -> P b -> (cmp a b <= 0)%Z <-> R a b) ->
  (forall a b c, R a b -> R b c -> R a c) ->
  (forall a b, R a b \/ R b a) ->
  Forall P l -> StronglySorted R (sortBy cmp l).
Proof.
  intros Hcmp Htrans Htotal. induction 1 as [|x l Hx HP IH]; simpl; [constructor|].
  apply (insertBy_sorted_on cmp R P); try done.
  by rewrite sortBy_perm.
Qed.

(** X19.  When no queued session has a priority key that names a member
    of [Object.prototype], the queue of the doctor dashboard holds exactly
    the sessions that are "waiting" or "assigned", by rank from high to
    low and, within one rank, in order of start time. *)
Theorem queue_is_sorted_by_urgency (allMyVisits : list Session) :
  Forall plainPriority (filter inQueue allMyVisits) ->
  myQueue allMyVisits ≡ₚ filter inQueue allMyVisits /\
  StronglySorted queueBefore (myQueue allMyVisits) /\
  forall i j a b,
    myQueue allMyVisits !! i = Some a -> myQueue allMyVisits !! j = Some b ->
    (i < j)%nat ->
    priorityRank a = Number (rankNumber a) /\
    priorityRank b = Number (rankNumber b) /\
    (rankNumber b <= rankNumber a)%Z.
Proof.
  intros Hplain.
  assert (StronglySorted queueBefore (myQueue allMyVisits)) as Hsorted.
  { unfold myQueue.
    apply (sortBy_sorted_on _ queueBefore plainPriority); [| | |done].
    - intros a b. apply queueCompare_before.
    - intros a b c. unfold queueBefore. lia.
    - intros a b. unfold queueBefore. lia. }
  assert (Forall plainPriority (myQueue allMyVisits)) as Hq.
  { unfold myQueue. by rewrite sortBy_perm. }
  split; [apply sortBy_perm|]. split; [done|].
  intros i j a b Hi Hj Hij. rewrite Forall_lookup in Hq.
  split; [apply plainPriority_rank; by eapply Hq|].
  split; [apply plainPriority_rank; by eapply Hq|].
  assert (queueBefore a b) as Hab; [|unfold queueBefore in Hab; lia].
  by apply (StronglySorted_lookup_lt queueBefore (myQueue allMyVisits) i j).
Qed.

Lemma queue_is_sorted_by_urgency_witness :
  myQueue sampleSessions
  = [ mkSession "3" "waiting" (Some "Emergency") 300;
      mkSession "4" "waiting" None 50;
      mkSession "1" "waiting" (Some "Normal") 100 ] /\
  (rankNumber (mkSession "1" "waiting" (Some "Normal") 100)
   <= rankNumber (mkSession "3" "waiting" (Some "Emergency") 300))%Z.
Proof.
  split; [vm_compute; reflexivity|].
  assert (Forall plainPriority (filter inQueue sampleSessions)) as Hplain.
  { assert (filter inQueue sampleSessions
            = [ mkSession "1" "waiting" (Some "Normal") 100;
                mkSession "3" "waiting" (Some "Emergency") 300;
                mkSession "4" "waiting" None 50 ]) as -> by (vm_compute; reflexivity).
    repeat (constructor; [unfold plainPriority; by compute_done|]). constructor. }
  apply (proj2 (proj2 (proj2 (proj2 (queue_is_sorted_by_urgency sampleSessions Hplain))
                  0%nat 2%nat
                  (mkSession "3" "waiting" (Some "Emergency") 300)
                  (mkSession "1" "waiting" (Some "Normal") 100)
                  eq_refl eq_refl (le_n_S _ _ (le_S _ _ (le_n _)))))).
Defined.

(** A priority key inherited from [Object.prototype] makes the comparator
    return [NaN] in both directions; the condition of the theorem rules
    such keys out. *)
Example inherited_key_compares_as_NaN :
  let normal := mkSession "1" "waiting" (Some "Normal") 100 in
  let odd := mkSession "2" "waiting" (Some "constructor") 200 in
  oddSessions = [normal; odd] /\
  queueCompare normal odd = NaN /\ queueCompare odd normal = NaN /\
  ~ Forall plainPriority (filter inQueue oddSessions).
Proof.
  cbv zeta. do 3 (split; [vm_compute; reflexivity|]).
  intros H. apply Forall_cons in H as [_ H]. apply Forall_cons in H as [H _].
  apply H. vm_compute. left.
Qed.

(** * Backlog arrival times *)

(** X20.  The arrival times of the backlog patients lie between the
    start and the end of the window and increase with the index,
    whatever the random draws. *)
Theorem backlog_times_in_window_and_order (startMs : Q) (i j : Z) (ri rj : Q) :
  (0 <= i)%Z -> (i < j)%Z -> (j <= 15)%Z ->
  (0 <= ri)%Q -> (ri < 1)%Q -> (0 <= rj)%Q -> (rj < 1)%Q ->
  let endMs := (startMs + 1800000)%Q in
  (startMs <= backlogVisitTime startMs endMs i ri)%Q /\
  (backlogVisitTime startMs endMs i ri < backlogVisitTime startMs endMs j rj)%Q /\
  (backlogVisitTime startMs endMs j rj < endMs)%Q.
Proof.
  intros Hi Hij Hj Hri0 Hri1 Hrj0 Hrj1. cbv zeta.
  assert (0 <= inject_Z i)%Q as HiQ by (by rewrite <- (Zle_Qle 0)).
  assert (inject_Z i + 1 <= inject_Z j)%Q as HijQ.
  { change 1%Q with (inject_Z 1). rewrite <- inject_Z_plus, <- Zle_Qle. lia. }
  assert (inject_Z j <= 15)%Q as HjQ
    by (change 15%Q with (inject_Z 15); rewrite <- Zle_Qle; lia).
  unfold backlogVisitTime. cbv zeta.
  set (xi := (inject_Z i * ((startMs + 1800000 - startMs) / 16))%Q).
  set (xj := (inject_Z j * ((startMs + 1800000 - startMs) / 16))%Q).
  assert (xi == inject_Z i * 112500)%Q as Hxi by (unfold xi; field).
  assert (xj == inject_Z j * 112500)%Q as Hxj by (unfold xj; field).
  clearbody xi xj.
  repeat match goal with
         | |- context [Qlt_le_dec ?a ?b] => destruct (Qlt_le_dec a b)
         | H : context [Qlt_le_dec ?a ?b] |- _ => destruct (Qlt_le_dec a b)
         end; split_and!; lra.
Qed.

Lemma backlog_times_in_window_and_order_witness :
  (backlogVisitTime 27000000 (27000000 + 1800000) 0 0
   < backlogVisitTime 27000000 (27000000 + 1800000) 1 (1 # 2))%Q.
Proof.
  apply (backlog_times_in_window_and_order 27000000 0 1 0 (1 # 2));
    try lia; vm_compute; congruence.
Defined.

(** * The simulation clock *)

Lemma clockStep_time (st : SimulationClock * list Notification) (ev : ClockEvent) :
  clock_time (clockStep st ev).1
  = (clock_time st.1 + (if decide (ev = Tick) then 1000 else 0))%Z.
Proof. destruct ev; simpl; lia. Qed.

(** X21.  The clock shows its starting time plus one second per tick,
    however ticks, subscriptions and cancellations are interleaved. *)
Theorem clock_counts_ticks (evs : list ClockEvent)
    (st : SimulationClock * list Notification) :
  getTime (clockRun evs st).1 = (getTime st.1 + 1000 * ticks evs)%Z.
Proof.
  unfold getTime, ticks. revert st.
  induction evs as [|ev evs IH]; intros st; simpl; [lia|].
  rewrite IH, clockStep_time, filter_cons.
  case_decide; simpl length; lia.
Qed.

Lemma clockStep_nodup (st : SimulationClock * list Notification) (ev : ClockEvent) :
  NoDup (subscribers st.1) -> NoDup (subscribers (clockStep st ev).1).
Proof.
  intros Hnd. destruct ev; simpl; [done| |].
  - case_decide; [done|]. apply NoDup_app. split; [done|].
    split; [|apply NoDup_singleton].
    intros x Hx Hx'. apply list_elem_of_singleton in Hx'. by subst.
  - by apply NoDup_filter.
Qed.

Lemma clockRun_app (evs1 evs2 : list ClockEvent)
    (st : SimulationClock * list Notification) :
  clockRun (evs1 ++ evs2) st = clockRun evs2 (clockRun evs1 st).
Proof. unfold clockRun. apply fold_left_app. Qed.

Lemma callsTo_app (cb : nat) (l1 l2 : list Notification) :
  callsTo cb (l1 ++ l2) = callsTo cb l1 ++ callsTo cb l2.
Proof. apply filter_app. Qed.

Lemma callsTo_told (cb : nat) (time : Z) (l : list nat) :
  cb ∉ l -> callsTo cb ((fun x => (x, time)) <$> l) = [].
Proof.
  intros Hout. apply elem_of_nil_inv. intros n Hn.
  apply list_elem_of_filter in Hn as [Hn1 Hn].
  apply list_elem_of_fmap in Hn as (x & -> & Hx). simpl in Hn1. by subst.
Qed.

Lemma clockStep_unsubscribed (cb : nat) (ev : ClockEvent)
    (st : SimulationClock * list Notification) :
  cb ∉ subscribers st.1 -> ev <> Subscribe cb ->
  (cb ∉ subscribers (clockStep st ev).1) /\
  callsTo cb (clockStep st ev).2 = callsTo cb st.2.
Proof.
  intros Hout Hev. destruct st as [c log].
  destruct ev as [|cb'|cb'];
    unfold clockStep, clockTick, clockSubscribe, clockUnsubscribe;
    cbn [fst snd subscribers clock_time intervalId] in *.
  - split; [done|]. by rewrite callsTo_app, callsTo_told, app_nil_r.
  - assert (cb' <> cb) as Hne by congruence. split.
    + case_decide; [done|]. intros Hin.
      apply elem_of_app in Hin as [Hin|Hin]; [done|].
      apply list_elem_of_singleton in Hin. by subst.
    + rewrite callsTo_app. unfold callsTo at 2.
      rewrite filter_cons, decide_False by done. by rewrite filter_nil, app_nil_r.
  - split; [|done]. intros Hin. by apply list_elem_of_filter in Hin as [_ Hin].
Qed.

(** While [cb] is neither subscribed nor subscribing it gets no call. *)
Lemma unsubscribed_gets_no_call (cb : nat) (evs : list ClockEvent)
    (st : SimulationClock * list Notification) :
  cb ∉ subscribers st.1 ->
  Subscribe cb ∉ evs ->
  (cb ∉ subscribers (clockRun evs st).1) /\
  callsTo cb (clockRun evs st).2 = callsTo cb st.2.
Proof.
  revert st. induction evs as [|ev evs IH]; intros st Hout Hno; [done|].
  assert (Subscribe cb ∉ evs) as Hno' by (intros H; apply Hno; by right).
  assert (ev <> Subscribe cb) as Hev by (intros ->; apply Hno; left).
  destruct (clockStep_unsubscribed cb ev st Hout Hev) as [Hout' Hcalls].
  destruct (IH (clockStep st ev) Hout' Hno') as [Hfin Hlog].
  split; [done|]. simpl. by rewrite Hlog.
Qed.

(** X22.  After [unsubscribe] a callback gets no further call until it
    subscribes again. *)
Theorem unsubscribe_ends_notifications (cb : nat) (evs1 evs2 : list ClockEvent)
    (st : SimulationClock * list Notification) :
  Subscribe cb ∉ evs2 ->
  callsTo cb (clockRun (evs1 ++ (Unsubscribe cb :: evs2)) st).2
  = callsTo cb (clockRun evs1 st).2.
Proof.
  intros Hno. rewrite clockRun_app.
  change (clockRun (Unsubscribe cb :: evs2) (clockRun evs1 st))
    with (clockRun evs2 (clockStep (clockRun evs1 st) (Unsubscribe cb))).
  destruct (unsubscribed_gets_no_call cb evs2
              (clockStep (clockRun evs1 st) (Unsubscribe cb))) as [_ ->];
    [|done|done].
  simpl. intros Hin. by apply list_elem_of_filter in Hin as [Hne _].
Qed.

Lemma unsubscribe_ends_notifications_witness :
  callsTo 7 (clockRun ([Subscribe 7; Subscribe 7; Tick]
                       ++ (Unsubscribe 7 :: [Tick; Tick]))
               (newClock 28800000 1, [])).2
  = [(7%nat, 28800000%Z); (7%nat, 28800000%Z); (7%nat, 28801000%Z)].
Proof.
  rewrite (unsubscribe_ends_notifications 7 [Subscribe 7; Subscribe 7; Tick]
             [Tick; Tick] (newClock 28800000 1, [])).
  - vm_compute. reflexivity.
  - intros Hin. repeat (apply elem_of_cons in Hin as [Hin|Hin]; [discriminate|]).
    by apply not_elem_of_nil in Hin.
Defined.

(** X23.  A tick tells every subscriber the new time, each exactly
    once. *)
Theorem tick_calls_each_subscriber_once (evs : list ClockEvent) (eightAm handle : Z) :
  let c := (clockRun evs (newClock eightAm handle, [])).1 in
  NoDup (subscribers c) /\
  (clockTick c).2 = (fun cb => (cb, (getTime c + 1000)%Z)) <$> subscribers c /\
  forall cb, cb ∈ subscribers c ->
    callsTo cb (clockTick c).2 = [(cb, (getTime c + 1000)%Z)].
Proof.
  cbv zeta.
  assert (forall st, NoDup (subscribers st.1) ->
                     NoDup (subscribers (clockRun evs st).1)) as Hrun.
  { induction evs as [|ev evs IH]; intros st Hnd; simpl; [done|].
    apply IH. by apply clockStep_nodup. }
  specialize (Hrun (newClock eightAm handle, []) (NoDup_nil_2)).
  set (c := (clockRun evs (newClock eightAm handle, [])).1) in *.
  split; [done|]. split; [done|].
  intros cb Hcb. unfold clockTick, callsTo, getTime. simpl.
  generalize (clock_time c + 1000)%Z as time. intros time.
  induction (subscribers c) as [|x l IH]; [by apply not_elem_of_nil in Hcb|].
  apply NoDup_cons in Hrun as [Hx Hl].
  rewrite fmap_cons, filter_cons. simpl.
  destruct (decide (x = cb)) as [->|Hne].
  - f_equal. apply elem_of_nil_inv. intros n Hn.
    apply list_elem_of_filter in Hn as [Hn1 Hn].
    apply list_elem_of_fmap in Hn as (y & -> & Hy). simpl in Hn1. by subst.
  - apply elem_of_cons in Hcb as [Hcb|Hcb]; [congruence|]. by apply IH.
Qed.

(** * The counters of the admin dashboard *)

Lemma step_knownStatus (c : Call) (s : Store) :
  writesKnownStatus c ->
  Forall (fun v => knownStatus (visit_status v)) (visits s) ->
  Forall (fun v => knownStatus (visit_status v)) (visits (step s c)).
Proof.
  intros Hc Hall. unfold step, knownStatus in *. destruct c; simpl in *.
  - done.
  - unfold beginVisit. destruct (list_find _ _); simpl; [|done].
    apply Forall_app. split; [done|]. constructor; [|constructor]. simpl. tauto.
  - unfold finalizeTriage. destruct (findVisit _ _) as [[k v]|]; [|done].
    destruct (findBestDoctor _ _ _) as [[i d]|]; simpl;
      (apply Forall_insert; [done|]); simpl; tauto.
  - unfold updateVisitStatus. destruct (findVisit _ _) as [[k v]|]; simpl; [|done].
    apply Forall_insert; [done|]. simpl.
    by destruct (upd_status updates).
  - unfold submitDiagnosis. destruct (findVisit _ _) as [[k v]|]; simpl; [|done].
    apply Forall_insert; [done|]. simpl. tauto.
  - done.
  - unfold updateDoctorStatus. by destruct (findDoctor _ _) as [[i d]|].
Qed.

Lemma count_four_ways (vs : list APIVisit) :
  Forall (fun a => knownStatus (visit_status (api_visit a))) vs ->
  (countStatus "triage" vs + countStatus "waiting" vs
   + countStatus "in_cabin" vs + countStatus "seen" vs)%nat = length vs.
Proof.
  unfold countStatus. induction 1 as [|a vs Ha Hall IH]; [done|].
  rewrite !filter_cons. simpl length.
  destruct Ha as [E|[E|[E|E]]]; rewrite E;
    repeat case_decide; try done; simpl length; lia.
Qed.

(** X24.  When every status update leaves one of the four known statuses
    on the visit (the status among its updates if there is one, else its
    status argument), the four counters of the admin dashboard add up to
    the number of visits. *)
Theorem dashboard_counters_add_up (cs : list Call) :
  Forall writesKnownStatus cs ->
  let vs := getTodaysVisits (run cs initialStore) in
  (countStatus "triage" vs + countStatus "waiting" vs
   + countStatus "in_cabin" vs + countStatus "seen" vs)%nat = length vs /\
  length vs = length (visits (run cs initialStore)).
Proof.
  intros Hcs. cbv zeta. split; [|unfold getTodaysVisits; by rewrite length_fmap].
  apply count_four_ways. unfold getTodaysVisits. apply Forall_fmap.
  assert (forall s, Forall (fun v => knownStatus (visit_status v)) (visits s) ->
                    Forall (fun v => knownStatus (visit_status v)) (visits (run cs s)))
    as Hrun.
  { induction Hcs as [|c cs Hc Hcs IH]; intros s Hs; simpl; [done|].
    apply IH. by apply step_knownStatus. }
  apply (Hrun initialStore). constructor.
Qed.

Lemma dashboard_counters_add_up_witness :
  (countStatus "triage" (getTodaysVisits (run oneDay initialStore))
   + countStatus "waiting" (getTodaysVisits (run oneDay initialStore))
   + countStatus "in_cabin" (getTodaysVisits (run oneDay initialStore))
   + countStatus "seen" (getTodaysVisits (run oneDay initialStore)))%nat
  = length (getTodaysVisits (run oneDay initialStore)).
Proof.
  refine (proj1 (dashboard_counters_add_up oneDay _)).
  unfold oneDay.
  repeat (apply Forall_cons; split;
          [simpl; try exact I; unfold knownStatus; auto 6 |]).
  apply Forall_nil_2.
Defined.

(** X25.  The admin dashboard counts no active doctor exactly when the
    assignment engine returns no doctor. *)
Theorem no_active_doctor_means_no_assignment (ds : list Doctor) (t p : string) :
  countActiveDoctors ds = 0%nat <-> findBestDoctor ds t p = None.
Proof.
  assert (countActiveDoctors ds = length (activeDoctorsOf ds)) as ->.
  { unfold countActiveDoctors, activeDoctorsOf.
    generalize 0%nat as k. intros k.
    assert (forall (f : nat -> Doctor -> DoctorRef),
              (forall i d, (f i d).2 = d) ->
              length (filter (fun d => doctor_status d = active) ds)
              = length (filter (fun r : DoctorRef => doctor_status r.2 = active)
                          (imap f ds))) as Hgen.
    { induction ds as [|d ds IH]; intros f Hf; [done|].
      rewrite imap_cons, !filter_cons, Hf.
      case_decide; simpl length; rewrite (IH (f ∘ S)); try done;
        intros i x; apply Hf. }
    by apply Hgen. }
  pose proof (findBestDoctor_elem_of ds t p) as H.
  split.
  - intros Hlen. apply findBestDoctor_none. by apply length_zero_iff_nil.
  - intros Hnone. rewrite Hnone in H. by rewrite H.
Qed.

(** * Assigning and completing one visit *)

Lemma findVisit_insert_same (vid : Z) (vs : list MockVisit) (k : nat)
    (v v' : MockVisit) :
  findVisit vid vs = Some (k, v) -> visit_id v' = vid ->
  findVisit vid (<[k:=v']> vs) = Some (k, v').
Proof.
  intros Hf Hid. apply list_find_Some in Hf as (Hk & _ & Hbefore).
  apply list_find_Some. split; [|split; [done|]].
  - apply list_lookup_insert_eq. by eapply lookup_lt_Some.
  - intros j y Hj Hlt. rewrite list_lookup_insert_ne in Hj by lia.
    by eapply Hbefore.
Qed.

Lemma alter_load_back (ds : list Doctor) (i : nat) (d : Doctor) :
  ds !! i = Some d -> (0 <= currentLoad d)%Z ->
  alter (setLoad (fun n => Z.max 0 (n - 1)))
        i (alter (setLoad (fun n => n + 1)%Z) i ds) = ds.
Proof.
  intros Hi Hpos. rewrite list_alter_alter_eq.
  rewrite <- (list_alter_id (fun x => x) ds i) at 2 by done.
  apply list_alter_ext; [|done]. intros x Hx.
  assert (x = d) as -> by congruence.
  destruct d as [a b c l st]. unfold setLoad.
  cbn [compose doctor_id doctor_name specialty currentLoad doctor_status] in *.
  f_equal. lia.
Qed.

(** X11.  Finalising the triage of an unassigned visit and then
    submitting its diagnosis leaves the roster exactly as it was. *)
Theorem assign_then_complete_restores_roster (s : Store) (vid : Z)
    (summary : TriageSummary) (pre : option string) (ai dn notes : string)
    (k : nat) (visit : MockVisit) :
  NoDup (doctor_id <$> doctors s) ->
  "" ∉ (doctor_id <$> doctors s) ->
  nonnegLoads (doctors s) ->
  findVisit vid (visits s) = Some (k, visit) ->
  assigned_doctor_id visit = None ->
  doctors (step (step s (FinalizeTriage vid summary pre ai))
                (SubmitDiagnosis vid dn notes))
  = doctors s.
Proof.
  intros Hnd Hne Hpos Hf Hnone.
  pose proof (proj1 (list_find_Some _ _ _ _) Hf) as (_ & Hvid & _). simpl in Hvid.
  unfold step at 2. cbn [call]. unfold finalizeTriage. rewrite Hf.
  pose proof (findBestDoctor_elem_of (doctors s) (routedSpecialty pre ai)
                (summary_priority summary)) as Hbest.
  destruct (findBestDoctor _ _ _) as [[i chosen]|].
  - apply elem_of_activeDoctorsOf in Hbest as [Hi _]. simpl in Hi.
    unfold step. cbn [call]. unfold submitDiagnosis. cbn [visits doctors].
    rewrite (findVisit_insert_same vid _ k visit
               (setAssigned (doctor_id chosen)
                  (setTriaged summary (routedSpecialty pre ai) visit)) Hf Hvid).
    cbn [doctors assigned_doctor_id setAssigned]. unfold decrementLoad.
    assert (doctor_id chosen <> "") as Hid.
    { intros E. apply Hne. rewrite <- E. by eapply id_on_roster. }
    rewrite decide_False by done.
    assert (findDoctor (doctor_id chosen)
              (alter (setLoad (fun n => n + 1)%Z) i (doctors s))
            = Some (i, setLoad (fun n => n + 1)%Z chosen)) as ->.
    { apply (list_find_unique doctor_id _ i (setLoad (fun n => (n + 1)%Z) chosen)).
      - by rewrite ids_alter_load.
      - by rewrite list_lookup_alter_eq, Hi. }
    apply (alter_load_back _ _ chosen Hi).
    unfold nonnegLoads in Hpos. rewrite Forall_lookup in Hpos. by apply (Hpos i).
  - unfold step. cbn [call]. unfold submitDiagnosis, withVisits. cbn [visits doctors].
    rewrite (findVisit_insert_same vid _ k visit
               (setTriaged summary (routedSpecialty pre ai) visit) Hf Hvid).
    cbn [doctors assigned_doctor_id setTriaged]. by rewrite Hnone.
Qed.

Lemma assign_then_complete_restores_roster_witness :
  doctors (step (step freshVisitClinic
                   (FinalizeTriage 1 (sampleSummary "Normal") None "Neurology"))
                (SubmitDiagnosis 1 "Dr. S. Strange" "Discharged."))
  = doctors freshVisitClinic.
Proof.
  apply (assign_then_complete_restores_roster freshVisitClinic 1
           (sampleSummary "Normal") None "Neurology" "Dr. S. Strange" "Discharged."
           0%nat (mkVisit 1 101 "triage" "In Triage..." "Normal" None None None)).
  - by compute_done.
  - by compute_done.
  - unfold nonnegLoads. vm_compute. repeat constructor; discriminate.
  - vm_compute. reflexivity.
  - reflexivity.
Defined.

Lemma tick_calls_each_subscriber_once_witness :
  callsTo 7 (clockTick (clockRun [Subscribe 7; Subscribe 9; Subscribe 7; Tick]
                          (newClock 28800000 1, [])).1).2
  = [(7%nat, 28802000%Z)].
Proof.
  refine (proj2 (proj2 (tick_calls_each_subscriber_once
                          [Subscribe 7; Subscribe 9; Subscribe 7; Tick]
                          28800000 1)) 7%nat _).
  vm_compute. left.
Defined.

(** Without the condition a visit can drop out of all four counters: the
    status among the updates is written last. *)
Example updates_can_write_an_unknown_status :
  let s := step crowdedClinic
             (UpdateVisitStatus 1 "waiting"
                (mkUpdates None None (Some "assigned") None None None None None)) in
  let vs := getTodaysVisits s in
  (countStatus "triage" vs + countStatus "waiting" vs
   + countStatus "in_cabin" vs + countStatus "seen" vs)%nat = 1%nat /\
  length vs = 2%nat.
Proof. vm_compute. split; reflexivity. Qed.
